(** * OMEGA-PRIME agent: a shallow embedding of [omega_prime_agent.py]

    The agent polls a list of feeds, fingerprints every entry, skips the
    ones already stored, scores the others by keyword, persists them to a
    SQLite table and a CSV file and posts the high-scoring ones to Telegram
    and Discord.

    Python [str] values are modelled by [string]: the sequence of bytes of
    their UTF-8 encoding.  Python [int] is [Z]. *)

From Stdlib Require Import ZArith NArith List String Ascii Bool Lia.
From Stdlib Require Import Strings.Byte DecimalString.
Import ListNotations.
Local Open Scope string_scope.
Local Open Scope Z_scope.

(** ** Python string primitives *)

(** [str.lower] on the ASCII range.  Outside ASCII only U+0130 and U+212A
    lower-case to something that contains an ASCII letter ("i" followed by
    U+0307, and "k"); no keyword of the scorer has a "k" or such an "i", so
    the keyword tests below read the same on the bytes left unchanged. *)
Definition lower_ascii (c : ascii) : ascii :=
  let n := N_of_ascii c in
  if ((65 <=? n) && (n <=? 90))%N then ascii_of_N (n + 32) else c.

Fixpoint lower (s : string) : string :=
  match s with
  | EmptyString => EmptyString
  | String c r => String (lower_ascii c) (lower r)
  end.

(** [word in text]: [word] occurs in [text] as a contiguous run. *)
Fixpoint str_contains (word text : string) : bool :=
  prefix word text ||
  match text with
  | EmptyString => false
  | String _ r => str_contains word r
  end.

(** [sep.join(parts)] *)
Definition join (sep : string) (parts : list string) : string :=
  String.concat sep parts.

(** [str(n)] / [f"{n}"] for an int. *)
Definition str_int (n : Z) : string := NilZero.string_of_int (Z.to_int n).

(** ** Scorer *)

(** The [keywords] dict of [score_item]; a dict iterates in insertion order. *)
Definition keywords : list (string * Z) :=
  [ ("airdrop", 5); ("testnet", 4); ("quest", 3); ("reward", 2);
    ("bounty", 4); ("grant", 2); ("retrodrop", 5); ("campaign", 2);
    ("earn", 1) ].

(** The f-string [f"{word}+{val}"]. *)
Definition reason_of (word : string) (val : Z) : string :=
  word ++ "+" ++ str_int val.

(** The loop state [score, tags, reasons]. *)
Definition Tally : Type := (Z * list string * list string)%type.

(** One iteration of [for word, val in keywords.items()]. *)
Definition score_step (text : string) (acc : Tally) (kv : string * Z) : Tally :=
  let '(score, tags, reasons) := acc in
  let '(word, val) := kv in
  if str_contains word text
  then (score + val, (tags ++ [word])%list,
        (reasons ++ [reason_of word val])%list)
  else acc.

Definition score_loop (table : list (string * Z)) (text : string) : Tally :=
  fold_left (score_step text) table (0, [], []).

Definition score_item (title summary : string) : Z * list string * string :=
  let text := lower (title ++ " " ++ summary) in
  let '(score, tags, reasons) := score_loop keywords text in
  (score, tags, join ";" reasons).

(** ** Fingerprint

    [hashlib.sha256] is written out (FIPS 180-4) over 32-bit words held in
    [Z], the wrap-around explicit, so that [hash_id] runs. *)

Module Sha256.

Definition w32 (x : Z) : Z := x mod 4294967296.

Definition rotr (n x : Z) : Z :=
  Z.lor (Z.shiftr x n) (w32 (Z.shiftl x (32 - n))).

(** [(x & y) ^ (~x & z)] on 32-bit words. *)
Definition choose (x y z : Z) : Z := Z.lxor (Z.land x y) (Z.ldiff z x).

Definition majority (x y z : Z) : Z :=
  Z.lxor (Z.lxor (Z.land x y) (Z.land x z)) (Z.land y z).

Definition big0 (x : Z) : Z := Z.lxor (Z.lxor (rotr 2 x) (rotr 13 x)) (rotr 22 x).
Definition big1 (x : Z) : Z := Z.lxor (Z.lxor (rotr 6 x) (rotr 11 x)) (rotr 25 x).
Definition small0 (x : Z) : Z := Z.lxor (Z.lxor (rotr 7 x) (rotr 18 x)) (Z.shiftr x 3).
Definition small1 (x : Z) : Z := Z.lxor (Z.lxor (rotr 17 x) (rotr 19 x)) (Z.shiftr x 10).

(** Round constants and initial hash value, in decimal. *)
Definition round_constants : list Z :=
  [ 1116352408; 1899447441; 3049323471; 3921009573; 961987163; 1508970993;
    2453635748; 2870763221; 3624381080; 310598401; 607225278; 1426881987;
    1925078388; 2162078206; 2614888103; 3248222580; 3835390401; 4022224774;
    264347078; 604807628; 770255983; 1249150122; 1555081692; 1996064986;
    2554220882; 2821834349; 2952996808; 3210313671; 3336571891; 3584528711;
    113926993; 338241895; 666307205; 773529912; 1294757372; 1396182291;
    1695183700; 1986661051; 2177026350; 2456956037; 2730485921; 2820302411;
    3259730800; 3345764771; 3516065817; 3600352804; 4094571909; 275423344;
    430227734; 506948616; 659060556; 883997877; 958139571; 1322822218;
    1537002063; 1747873779; 1955562222; 2024104815; 2227730452; 2361852424;
    2428436474; 2756734187; 3204031479; 3329325298 ].

Definition initial_hash : list Z :=
  [ 1779033703; 3144134277; 1013904242; 2773480762;
    1359893119; 2600822924; 528734635; 1541459225 ].

(** [k] bytes of [v], most significant first. *)
Fixpoint be_bytes (k : nat) (v : Z) : list Z :=
  match k with
  | O => []
  | S k' => ((v / 256 ^ Z.of_nat k') mod 256) :: be_bytes k' v
  end.

(** Padding: a 1 bit, zeros up to 56 mod 64, the bit length on 8 bytes. *)
Definition pad (msg : list Z) : list Z :=
  let n := Z.of_nat (List.length msg) in
  (msg ++ [128] ++ repeat 0 (Z.to_nat ((55 - n) mod 64)) ++ be_bytes 8 (8 * n))%list.

Fixpoint words (bs : list Z) : list Z :=
  match bs with
  | a :: b :: c :: d :: r => (((a * 256 + b) * 256 + c) * 256 + d) :: words r
  | _ => []
  end.

(** The message schedule, newest word first: [r = W(t-1) :: W(t-2) :: ...]. *)
Definition next_word (r : list Z) : Z :=
  w32 (small1 (nth 1 r 0) + nth 6 r 0 + small0 (nth 14 r 0) + nth 15 r 0).

Fixpoint extend (n : nat) (r : list Z) : list Z :=
  match n with
  | O => r
  | S n' => extend n' (next_word r :: r)
  end.

Definition schedule (block : list Z) : list Z := rev (extend 48 (rev block)).

Definition round (s : list Z) (kw : Z * Z) : list Z :=
  match s with
  | [a; b; c; d; e; f; g; h] =>
      let t1 := w32 (h + big1 e + choose e f g + fst kw + snd kw) in
      let t2 := w32 (big0 a + majority a b c) in
      [w32 (t1 + t2); a; b; c; w32 (d + t1); e; f; g]
  | _ => s
  end.

Definition compress (h : list Z) (block : list Z) : list Z :=
  let s := fold_left round (combine round_constants (schedule block)) h in
  map (fun p => w32 (fst p + snd p)) (combine h s).

Fixpoint hash_blocks (n : nat) (ws : list Z) (h : list Z) : list Z :=
  match n with
  | O => h
  | S n' => hash_blocks n' (skipn 16 ws) (compress h (firstn 16 ws))
  end.

Definition Z_of_byte (b : byte) : Z := Z.of_N (Byte.to_N b).

Definition byte_of_Z (z : Z) : byte :=
  match Byte.of_N (Z.to_N (z mod 256)) with
  | Some b => b
  | None => Byte.x00
  end.

(** [hashlib.sha256(data).digest()] *)
Definition digest (data : list byte) : list byte :=
  let ws := words (pad (map Z_of_byte data)) in
  let h := hash_blocks (List.length ws / 16) ws initial_hash in
  map byte_of_Z (flat_map (be_bytes 4) h).

End Sha256.

(** [bytes.hex()]: two lower-case hexadecimal digits per byte. *)
Definition hex_digit (n : N) : ascii :=
  match String.get (N.to_nat n) "0123456789abcdef" with
  | Some c => c
  | None => "0"%char
  end.

Definition hex_byte (b : byte) : string :=
  String (hex_digit (Byte.to_N b / 16)) (String (hex_digit (Byte.to_N b mod 16)) "").

Fixpoint hexlify (bs : list byte) : string :=
  match bs with
  | [] => ""
  | b :: r => hex_byte b ++ hexlify r
  end.

(** [s.encode()]: the string is held as its UTF-8 bytes already. *)
Definition encode (s : string) : list byte := list_byte_of_string s.

(** [hashlib.sha256(data).hexdigest()] *)
Definition sha256_hexdigest (data : list byte) : string :=
  hexlify (Sha256.digest data).

Definition hash_id (source url : string) : string :=
  sha256_hexdigest (encode (source ++ url)).

(** [str.strip()]: Python strips the code points for which [str.isspace]
    holds; they are listed here by their UTF-8 bytes. *)
Definition space1 (a : ascii) : bool :=
  let n := N_of_ascii a in
  (((9 <=? n) && (n <=? 13)) || ((28 <=? n) && (n <=? 32)))%N.

Definition space2 (a b : ascii) : bool :=
  let m := N_of_ascii a in
  let n := N_of_ascii b in
  ((m =? 194) && ((n =? 133) || (n =? 160)))%N.

Definition space3 (a b c : ascii) : bool :=
  let l := N_of_ascii a in
  let m := N_of_ascii b in
  let n := N_of_ascii c in
  (((l =? 225) && (m =? 154) && (n =? 128))
   || ((l =? 226) && (m =? 128) &&
       (((128 <=? n) && (n <=? 138)) || (n =? 168) || (n =? 169) || (n =? 175)))
   || ((l =? 226) && (m =? 129) && (n =? 159))
   || ((l =? 227) && (m =? 128) && (n =? 128)))%N.

(** Drops the white space at the front of [s]; [back] reads the bytes of a
    code point in reverse, for a string that is held back to front. *)
Fixpoint drop_space (back : bool) (s : string) : string :=
  match s with
  | String a r1 =>
      if space1 a then drop_space back r1 else
      match r1 with
      | String b r2 =>
          if (if back then space2 b a else space2 a b) then drop_space back r2 else
          match r2 with
          | String c r3 =>
              if (if back then space3 c b a else space3 a b c)
              then drop_space back r3 else s
          | EmptyString => s
          end
      | EmptyString => s
      end
  | EmptyString => s
  end.

Definition reverse (s : string) : string :=
  string_of_list_ascii (rev (list_ascii_of_string s)).

Definition strip (s : string) : string :=
  reverse (drop_space true (reverse (drop_space false s))).

(** [repr] of a list of strings that need no escaping (the tags are
    keywords of the scorer): [['airdrop', 'quest']]. *)
Definition repr_list (l : list string) : string :=
  "[" ++ join ", " (map (fun s => "'" ++ s ++ "'") l) ++ "]".

Definition newline : string := String (ascii_of_N 10) "".

(** ** Data *)

(** A parsed feed entry: a mapping in which any key may be missing. *)
Record Entry : Type := {
  entry_link : option string;
  entry_title : option string;
  entry_summary : option string;
  entry_published : option string
}.

(** [d.get(key, default)] for a string value. *)
Definition get_or (v : option string) (default : string) : string :=
  match v with
  | Some s => s
  | None => default
  end.

(** The [item] dict built by [fetch_feed]. *)
Record Item : Type := {
  item_id : string;
  item_source : string;
  item_title : string;
  item_url : string;
  item_published : string;
  item_summary : string;
  item_score : Z;
  item_reason : string;
  item_tags : list string;
  item_fetched_at : string
}.

(** A row of the table [opportunities]; [id] is its primary key. *)
Record Row : Type := {
  row_id : string;
  row_source : string;
  row_title : string;
  row_url : string;
  row_published : string;
  row_summary : string;
  row_score : Z;
  row_reason : string;
  row_tags : string;
  row_fetched_at : string
}.

(** The values [save_to_db] binds to the INSERT. *)
Definition db_values (item : Item) : Row :=
  {| row_id := item_id item;
     row_source := item_source item;
     row_title := item_title item;
     row_url := item_url item;
     row_published := item_published item;
     row_summary := item_summary item;
     row_score := item_score item;
     row_reason := item_reason item;
     row_tags := join "," (item_tags item);
     row_fetched_at := item_fetched_at item |}.

(** A record of the CSV file: its fields, as [csv.writer] is given them. *)
Definition CsvRecord : Type := list string.

Definition csv_header : CsvRecord :=
  [ "id"; "source"; "title"; "url"; "published"; "summary"; "score";
    "reason"; "tags"; "fetched_at" ].

Definition csv_fields (item : Item) : CsvRecord :=
  [ item_id item; item_source item; item_title item; item_url item;
    item_published item; item_summary item; str_int (item_score item);
    item_reason item; join "," (item_tags item); item_fetched_at item ].

(** A call of [requests.post]. *)
Inductive Request : Type :=
| PostForm (endpoint : string) (data : list (string * string))
| PostJson (endpoint : string) (json : list (string * string)).

(** The [notify] object of the configuration.  [enabled] is the truth value
    of the key (false when it is missing); a credential is [None] when its
    key is missing or null. *)
Record TelegramConfig : Type := {
  tg_enabled : bool;
  tg_bot_token : option string;
  tg_chat_id : option string
}.

Record DiscordConfig : Type := {
  dc_enabled : bool;
  dc_webhook_url : option string
}.

Record NotifyConfig : Type := {
  telegram : option TelegramConfig;
  discord : option DiscordConfig
}.

(** ** The world the agent acts on *)

Record World : Type := {
  table : list Row;                     (* opportunities, oldest first *)
  csv_file : option (list CsvRecord);   (* None: no file at CSV_PATH *)
  posted : list Request;                (* calls of requests.post, oldest first *)
  stdout : list string;                 (* printed lines, oldest first *)
  clock : nat                           (* calls made to the outside so far *)
}.

Definition with_table (t : list Row) (w : World) : World :=
  {| table := t; csv_file := csv_file w; posted := posted w;
     stdout := stdout w; clock := clock w |}.

Definition with_csv (f : option (list CsvRecord)) (w : World) : World :=
  {| table := table w; csv_file := f; posted := posted w;
     stdout := stdout w; clock := clock w |}.

Definition with_posted (p : list Request) (w : World) : World :=
  {| table := table w; csv_file := csv_file w; posted := p;
     stdout := stdout w; clock := clock w |}.

Definition with_stdout (o : list string) (w : World) : World :=
  {| table := table w; csv_file := csv_file w; posted := posted w;
     stdout := o; clock := clock w |}.

Definition tick (w : World) : World :=
  {| table := table w; csv_file := csv_file w; posted := posted w;
     stdout := stdout w; clock := S (clock w) |}.

(** The calls that reach outside the process and may raise.  A call that
    raises is taken to leave the table and the file as they were. *)
Inductive Op : Type :=
| OpParse (url : string)          (* feedparser.parse(url) *)
| OpSelect (uid : string)         (* cur.execute("SELECT ...") *)
| OpInsert (r : Row)              (* cur.execute("INSERT OR IGNORE ..."); conn.commit() *)
| OpAppend (item : Item)          (* open(CSV_PATH, "a") and the writes *)
| OpPost (r : Request).           (* requests.post(...) *)

(** What the agent is configured with and what the outside does.  The
    oracles read the world, whose [clock] moves at every outside call, so
    the same call may go differently each time it is made. *)
Record Env : Type := {
  FEEDS : list string;
  NOTIFY : NotifyConfig;
  getenv : string -> option string;
  feed_entries : World -> string -> list Entry;
  utcnow : World -> string;
  fault : World -> Op -> option string   (* Some e: raises an Exception, str(e) = e *)
}.

(** ** Computations: state and exceptions *)

(** A computation returns or raises; what is raised is an [Exception] (the
    kind the handler of [fetch_feed] catches), kept as its message. *)
Inductive outcome (A : Type) : Type :=
| Ret (a : A)
| Raise (e : string).

Arguments Ret {A} a.
Arguments Raise {A} e.

Definition M (A : Type) : Type := World -> outcome A * World.

Definition ret {A : Type} (a : A) : M A := fun w => (Ret a, w).

Definition bind {A B : Type} (m : M A) (k : A -> M B) : M B :=
  fun w =>
    match m w with
    | (Ret a, w') => k a w'
    | (Raise e, w') => (Raise e, w')
    end.

Notation "x <- m ;; k" := (bind m (fun x => k))
  (at level 61, m at next level, right associativity).
Notation "m ;; k" := (bind m (fun _ => k))
  (at level 61, right associativity).

(** [try: m  except Exception as e: h e] *)
Definition try_except {A : Type} (m : M A) (h : string -> M A) : M A :=
  fun w =>
    match m w with
    | (Ret a, w') => (Ret a, w')
    | (Raise e, w') => h e w'
    end.

(** [for x in xs: body x], where [continue] is the body returning early. *)
Fixpoint for_each {A : Type} (xs : list A) (body : A -> M unit) : M unit :=
  match xs with
  | [] => ret tt
  | x :: r => body x ;; for_each r body
  end.

Definition get_world : M World := fun w => (Ret w, w).

Definition modify (f : World -> World) : M unit := fun w => (Ret tt, f w).

(** [print(line)]: the line goes to the standard output; writing to it is
    taken to succeed. *)
Definition print (line : string) : M unit :=
  modify (fun w => with_stdout (stdout w ++ [line])%list w).

(** ** The agent *)

(** Truth value of a credential: [None] and the empty string are falsy. *)
Definition truthy (v : option string) : bool :=
  match v with
  | Some (String _ _) => true
  | _ => false
  end.

(** The message of [notify]. *)
Definition message_text (item : Item) : string :=
  "💡 New Opportunity: " ++ item_title item ++ newline ++
  item_url item ++ newline ++
  "Score: " ++ str_int (item_score item) ++
  " | Tags: " ++ join "," (item_tags item).

Definition telegram_request (token chat_id text : string) : Request :=
  PostForm ("https://api.telegram.org/bot" ++ token ++ "/sendMessage")
           [("chat_id", chat_id); ("text", text)].

Definition discord_request (webhook text : string) : Request :=
  PostJson webhook [("content", text)].

(** [INSERT OR IGNORE]: a row whose key is taken is dropped. *)
Definition has_id (uid : string) (t : list Row) : bool :=
  existsb (fun r => (row_id r =? uid)%string) t.

Definition insert_or_ignore (r : Row) (t : list Row) : list Row :=
  if has_id (row_id r) t then t else (t ++ [r])%list.

(** What [save_to_csv] leaves in the file: the header goes first when the
    file did not exist. *)
Definition csv_append (item : Item) (f : option (list CsvRecord)) : list CsvRecord :=
  match f with
  | None => [csv_header; csv_fields item]
  | Some records => (records ++ [csv_fields item])%list
  end.

Section Agent.

Variable E : Env.

(** An outside call: the clock moves, and the call raises when the outside
    says so. *)
Definition call (op : Op) : M unit :=
  fun w =>
    match fault E w op with
    | Some e => (Raise e, tick w)
    | None => (Ret tt, tick w)
    end.

(** [os.getenv(name, default)] *)
Definition os_getenv (name : string) (default : option string) : option string :=
  match getenv E name with
  | Some v => Some v
  | None => default
  end.

(** [datetime.utcnow().isoformat()] *)
Definition utcnow_isoformat : M string :=
  fun w => (Ret (utcnow E w), tick w).

(** [feedparser.parse(url).entries] *)
Definition feedparser_parse (url : string) : M (list Entry) :=
  fun w =>
    match fault E w (OpParse url) with
    | Some e => (Raise e, tick w)
    | None => (Ret (feed_entries E w url), tick w)
    end.

(** [cur.execute("SELECT id ..."); cur.fetchone()] as a truth value. *)
Definition select_id (uid : string) : M bool :=
  call (OpSelect uid) ;;
  w <- get_world ;;
  ret (has_id uid (table w)).

Definition save_to_db (item : Item) : M unit :=
  call (OpInsert (db_values item)) ;;
  modify (fun w => with_table (insert_or_ignore (db_values item) (table w)) w).

Definition save_to_csv (item : Item) : M unit :=
  w0 <- get_world ;;
  call (OpAppend item) ;;
  modify (fun w => with_csv (Some (csv_append item (csv_file w0))) w).

(** The call is recorded, then it returns or raises. *)
Definition requests_post (r : Request) : M unit :=
  modify (fun w => with_posted (posted w ++ [r])%list w) ;;
  call (OpPost r).

Definition notify_telegram (text : string) : M unit :=
  match telegram (NOTIFY E) with
  | Some tg =>
      if tg_enabled tg then
        let token := os_getenv "TG_BOT_TOKEN" (tg_bot_token tg) in
        let chat_id := os_getenv "TG_CHAT_ID" (tg_chat_id tg) in
        if truthy token && truthy chat_id
        then requests_post (telegram_request (get_or token "") (get_or chat_id "") text)
        else ret tt
      else ret tt
  | None => ret tt
  end.

Definition notify_discord (text : string) : M unit :=
  match discord (NOTIFY E) with
  | Some dc =>
      if dc_enabled dc then
        let webhook := os_getenv "DISCORD_WEBHOOK_URL" (dc_webhook_url dc) in
        if truthy webhook
        then requests_post (discord_request (get_or webhook "") text)
        else ret tt
      else ret tt
  | None => ret tt
  end.

Definition notify (item : Item) : M unit :=
  let text := message_text item in
  notify_telegram text ;;
  notify_discord text.

(** The fingerprint [fetch_feed] gives an entry. *)
Definition entry_uid (url : string) (entry : Entry) : string :=
  hash_id url (get_or (entry_link entry) "").

(** The [item] of an entry, stamped [now]. *)
Definition make_item (url : string) (entry : Entry) (now : string) : Item :=
  let title := strip (get_or (entry_title entry) "") in
  let summary := strip (get_or (entry_summary entry) "") in
  let '(score, tags, reason) := score_item title summary in
  {| item_id := entry_uid url entry;
     item_source := url;
     item_title := title;
     item_url := get_or (entry_link entry) "";
     item_published := get_or (entry_published entry) "";
     item_summary := summary;
     item_score := score;
     item_reason := reason;
     item_tags := tags;
     item_fetched_at := now |}.

Definition log_line (item : Item) : string :=
  "[+] " ++ item_title item ++ " (" ++ repr_list (item_tags item) ++
  ") -> Score " ++ str_int (item_score item).

(** The body of the loop over [feed.entries]. *)
Definition process_entry (url : string) (entry : Entry) : M unit :=
  seen <- select_id (entry_uid url entry) ;;
  if seen : bool then ret tt
  else
    now <- utcnow_isoformat ;;
    let item := make_item url entry now in
    save_to_db item ;;
    save_to_csv item ;;
    (if 3 <=? item_score item then notify item else ret tt) ;;
    print (log_line item).

Definition error_line (url e : string) : string :=
  "[!] Error fetching " ++ url ++ ": " ++ e.

Definition fetch_feed (url : string) : M unit :=
  try_except
    (entries <- feedparser_parse url ;;
     for_each entries (process_entry url))
    (fun e => print (error_line url e)).

Definition run_once : M unit :=
  now <- utcnow_isoformat ;;
  print (newline ++ "=== OMEGA-PRIME run " ++ now ++ " ===") ;;
  for_each (FEEDS E) fetch_feed.

End Agent.

(** * Specification side *)

(** The sum of a list of weights. *)
Definition total (l : list Z) : Z := fold_right Z.add 0 l.

(** The keywords of [table] that occur in [text], in table order. *)
Definition hits (table : list (string * Z)) (text : string) : list (string * Z) :=
  filter (fun kv => str_contains (fst kv) text) table.

(** [bytes.fromhex] on what [hexlify] writes. *)
Definition unhex_digit (c : ascii) : option N :=
  let n := N_of_ascii c in
  if ((48 <=? n) && (n <=? 57))%N then Some (n - 48)%N
  else if ((97 <=? n) && (n <=? 102))%N then Some (n - 87)%N
  else None.

Definition unhex_byte (hi lo : ascii) : option byte :=
  match unhex_digit hi, unhex_digit lo with
  | Some h, Some l => Byte.of_N (16 * h + l)
  | _, _ => None
  end.

Fixpoint unhexlify (s : string) : option (list byte) :=
  match s with
  | EmptyString => Some []
  | String hi (String lo r) =>
      match unhex_byte hi lo, unhexlify r with
      | Some b, Some bs => Some (b :: bs)
      | _, _ => None
      end
  | String _ EmptyString => None
  end.

(** Rows of the table and records of the CSV file that carry [uid]. *)
Definition count_id (uid : string) (t : list Row) : nat :=
  List.length (filter (fun r => (row_id r =? uid)%string) t).

Definition record_id (rec : CsvRecord) : string := hd "" rec.

Definition csv_count (uid : string) (f : option (list CsvRecord)) : nat :=
  match f with
  | None => O
  | Some records =>
      List.length (filter (fun rec => (record_id rec =? uid)%string) records)
  end.

(** What holds of the sinks however the agent was run before: keys are
    unique, every row is keyed by the fingerprint of its source and url, and
    the file holds the header and records of stored rows only. *)
Definition consistent (w : World) : Prop :=
  NoDup (map row_id (table w))
  /\ (forall r, In r (table w) -> row_id r = hash_id (row_source r) (row_url r))
  /\ (forall records rec,
         csv_file w = Some records -> In rec records ->
         rec = csv_header \/ has_id (record_id rec) (table w) = true).

Definition empty_world : World :=
  {| table := []; csv_file := None; posted := []; stdout := []; clock := O |}.

(** What one step of the agent can do to the sinks: nothing, a row alone
    (the CSV write raised), or a row and its record. *)
Inductive store_step (w w' : World) : Prop :=
| step_idle :
    table w' = table w -> csv_file w' = csv_file w -> store_step w w'
| step_row (item : Item) :
    item_id item = hash_id (item_source item) (item_url item) ->
    has_id (item_id item) (table w) = false ->
    table w' = (table w ++ [db_values item])%list ->
    csv_file w' = csv_file w ->
    store_step w w'
| step_row_record (item : Item) :
    item_id item = hash_id (item_source item) (item_url item) ->
    has_id (item_id item) (table w) = false ->
    table w' = (table w ++ [db_values item])%list ->
    csv_file w' = Some (csv_append item (csv_file w)) ->
    store_step w w'.

Inductive store_steps : World -> World -> Prop :=
| steps_none (w w' : World) :
    table w' = table w -> csv_file w' = csv_file w -> store_steps w w'
| steps_more (w w1 w2 : World) :
    store_steps w w1 -> store_step w1 w2 -> store_steps w w2.

(** Once [uid] is stored, its row and its records stay as they are. *)
Definition settled (uid : string) (rows records : nat) (w : World) : Prop :=
  has_id uid (table w) = true
  /\ count_id uid (table w) = rows
  /\ csv_count uid (csv_file w) = records.

(** A word without a space in it. *)
Definition spaceless (word : string) : bool :=
  forallb (fun c => negb (Ascii.eqb c " "%char)) (list_ascii_of_string word).

(** [l'] is [l] with something added at its end. *)
Definition extends {A : Type} (l l' : list A) : Prop :=
  exists more, l' = (l ++ more)%list.

(** The file [f'] is the file [f] with records added at its end; a file
    that appears starts with the header. *)
Definition csv_extends (f f' : option (list CsvRecord)) : Prop :=
  match f, f' with
  | None, None => True
  | None, Some records' => exists more, records' = csv_header :: more
  | Some records, Some records' => extends records records'
  | Some _, None => False
  end.

(** From [w] to [w'] rows, records, requests and printed lines were added
    at the end and nothing else was touched; the rows added satisfy [P]. *)
Definition grows (P : Row -> Prop) (w w' : World) : Prop :=
  (exists rows, table w' = (table w ++ rows)%list /\ Forall P rows)
  /\ csv_extends (csv_file w) (csv_file w')
  /\ extends (posted w) (posted w')
  /\ extends (stdout w) (stdout w').

(** The computation [m] takes every world to one that is [R]-related to it,
    whether it returns or raises. *)
Definition keeps {A : Type} (R : World -> World -> Prop) (m : M A) : Prop :=
  forall w, R w (snd (m w)).

(** A row whose key, score, reason and tags are those the agent computes
    from its other columns. *)
Definition scored_row (r : Row) : Prop :=
  row_id r = hash_id (row_source r) (row_url r)
  /\ row_score r = fst (fst (score_item (row_title r) (row_summary r)))
  /\ row_tags r = join "," (snd (fst (score_item (row_title r) (row_summary r))))
  /\ row_reason r = snd (score_item (row_title r) (row_summary r))
  /\ 0 <= row_score r <= 28.



(** The file [f], if there is one, is still there in [f'] with the same
    records at its start. *)
Definition csv_kept (f f' : option (list CsvRecord)) : Prop :=
  match f with
  | Some records => exists more, f' = Some (records ++ more)%list
  | None => True
  end.

(** Two worlds with the same table, file and requests posted. *)
Definition same_sinks (w w' : World) : Prop :=
  table w' = table w /\ csv_file w' = csv_file w /\ posted w' = posted w.

(** Two worlds that differ by the clock at most. *)
Definition same_but_clock (w w' : World) : Prop :=
  table w' = table w /\ csv_file w' = csv_file w
  /\ posted w' = posted w /\ stdout w' = stdout w.

Section AgentSpec.

Variable E : Env.

(** Everything the agent does, in one run or over several. *)
Inductive runs : World -> World -> Prop :=
| runs_here (w : World) : runs w w
| runs_entry (w w' : World) (url : string) (entry : Entry) :
    runs w w' -> runs w (snd (process_entry E url entry w'))
| runs_feed (w w' : World) (url : string) :
    runs w w' -> runs w (snd (fetch_feed E url w'))
| runs_once (w w' : World) :
    runs w w' -> runs w (snd (run_once E w')).

(** The requests [notify] makes when no call raises: one to each channel
    that is enabled and whose credentials are set. *)
Definition telegram_deliveries (text : string) : list Request :=
  match telegram (NOTIFY E) with
  | Some tg =>
      let token := os_getenv E "TG_BOT_TOKEN" (tg_bot_token tg) in
      let chat_id := os_getenv E "TG_CHAT_ID" (tg_chat_id tg) in
      if tg_enabled tg && truthy token && truthy chat_id
      then [telegram_request (get_or token "") (get_or chat_id "") text]
      else []
  | None => []
  end.

Definition discord_deliveries (text : string) : list Request :=
  match discord (NOTIFY E) with
  | Some dc =>
      let webhook := os_getenv E "DISCORD_WEBHOOK_URL" (dc_webhook_url dc) in
      if dc_enabled dc && truthy webhook
      then [discord_request (get_or webhook "") text]
      else []
  | None => []
  end.

Definition deliveries (text : string) : list Request :=
  (telegram_deliveries text ++ discord_deliveries text)%list.

(** A world that differs from [w] by requests posted and clock ticks only. *)
Definition posted_more (w w' : World) (rs : list Request) : Prop :=
  table w' = table w /\ csv_file w' = csv_file w /\ stdout w' = stdout w
  /\ posted w' = (posted w ++ rs)%list.

(** The requests a message is owed, read off the notifier's contract and
    the two endpoints, with none of the helpers of [notify]: a credential is
    the environment variable when it is set and the configured value
    otherwise; a channel is served when it is enabled and none of its
    credentials is missing or empty. *)
Definition resolved (name : string) (configured : option string) : option string :=
  match getenv E name with
  | Some value => Some value
  | None => configured
  end.

Definition telegram_owed (text : string) : list Request :=
  match telegram (NOTIFY E) with
  | Some tg =>
      if tg_enabled tg then
        match resolved "TG_BOT_TOKEN" (tg_bot_token tg),
              resolved "TG_CHAT_ID" (tg_chat_id tg) with
        | Some (String a token), Some (String b chat) =>
            [PostForm
               ("https://api.telegram.org/bot" ++ String a token ++ "/sendMessage")
               [("chat_id", String b chat); ("text", text)]]
        | _, _ => []
        end
      else []
  | None => []
  end.

Definition discord_owed (text : string) : list Request :=
  match discord (NOTIFY E) with
  | Some dc =>
      if dc_enabled dc then
        match resolved "DISCORD_WEBHOOK_URL" (dc_webhook_url dc) with
        | Some (String a hook) => [PostJson (String a hook) [("content", text)]]
        | _ => []
        end
      else []
  | None => []
  end.

(** What [process_entry] runs once the entry is known to be new. *)
Definition persist_and_notify (item : Item) : M unit :=
  save_to_db E item ;;
  save_to_csv E item ;;
  (if 3 <=? item_score item then notify E item else ret tt) ;;
  print (log_line item).

(** The world in which [run_once] starts on the feeds. *)
Definition header_world (w : World) : World :=
  with_stdout
    (stdout w ++ [newline ++ "=== OMEGA-PRIME run " ++ utcnow E w ++ " ==="])
    (tick w).

(** A channel that is switched on while a credential of it is missing or
    empty, once the environment and the configuration are both read. *)
Definition telegram_lacks_credentials : bool :=
  match telegram (NOTIFY E) with
  | Some tg =>
      tg_enabled tg &&
      negb (truthy (os_getenv E "TG_BOT_TOKEN" (tg_bot_token tg)) &&
            truthy (os_getenv E "TG_CHAT_ID" (tg_chat_id tg)))
  | None => false
  end.

Definition discord_lacks_credentials : bool :=
  match discord (NOTIFY E) with
  | Some dc =>
      dc_enabled dc &&
      negb (truthy (os_getenv E "DISCORD_WEBHOOK_URL" (dc_webhook_url dc)))
  | None => false
  end.

End AgentSpec.

(** * Concrete runs *)

Module Demo.

Definition feed_a : string := "https://f/a".
Definition feed_b : string := "https://f/b".
Definition feed_c : string := "https://f/c".

Definition airdrop : Entry :=
  {| entry_link := Some "https://x/1";
     entry_title := Some "  Airdrop announcement ";
     entry_summary := Some "join the testnet quest";
     entry_published := Some "Mon, 02 Nov 2026" |}.

(** The same link under another title. *)
Definition airdrop_again : Entry :=
  {| entry_link := Some "https://x/1";
     entry_title := Some "Airdrop announcement (updated)";
     entry_summary := None;
     entry_published := None |}.

(** Two entries without a link. *)
Definition notes : Entry :=
  {| entry_link := None;
     entry_title := Some "Weekly earnest notes";
     entry_summary := None;
     entry_published := None |}.

Definition quest : Entry :=
  {| entry_link := None;
     entry_title := Some "Testnet quest";
     entry_summary := Some "rewards inside";
     entry_published := None |}.

Definition both_channels : NotifyConfig :=
  {| telegram := Some {| tg_enabled := true;
                         tg_bot_token := Some "T0K";
                         tg_chat_id := Some "42" |};
     discord := Some {| dc_enabled := true;
                        dc_webhook_url := Some "https://d/hook" |} |}.

(** Telegram is on with no chat id; Discord is on with an empty webhook. *)
Definition no_credentials : NotifyConfig :=
  {| telegram := Some {| tg_enabled := true;
                         tg_bot_token := Some "T0K";
                         tg_chat_id := None |};
     discord := Some {| dc_enabled := true;
                        dc_webhook_url := Some "" |} |}.

Definition no_variables (name : string) : option string := None.

Definition never (w : World) (op : Op) : option string := None.


(** Every post is refused. *)
Definition posts_refused (w : World) (op : Op) : option string :=
  match op with
  | OpPost _ => Some "ConnectionError"
  | _ => None
  end.

Definition env (cfg : NotifyConfig) (faults : World -> Op -> option string) : Env :=
  {| FEEDS := [feed_a; feed_b; feed_c];
     NOTIFY := cfg;
     getenv := no_variables;
     feed_entries := fun _ url =>
       if (url =? feed_a)%string then [airdrop; notes; quest]
       else if (url =? feed_c)%string then [airdrop_again]
       else [];
     utcnow := fun w => "2026-11-0" ++ str_int (Z.of_nat (clock w));
     fault := faults |}.

(** Telegram is on with no bot token; Discord is complete. *)
Definition discord_only : NotifyConfig :=
  {| telegram := Some {| tg_enabled := true;
                         tg_bot_token := None;
                         tg_chat_id := Some "42" |};
     discord := Some {| dc_enabled := true;
                        dc_webhook_url := Some "https://d/hook" |} |}.

Definition quiet : Env := env both_channels never.
Definition half : Env := env discord_only never.
Definition refused : Env := env both_channels posts_refused.
Definition bare : Env := env no_credentials never.


(** The world after [airdrop] alone, and after the whole of [feed_a] next. *)
Definition after_airdrop : World :=
  Eval vm_compute in snd (process_entry quiet feed_a airdrop empty_world).

Definition after_feed : World :=
  Eval vm_compute in snd (fetch_feed quiet feed_a after_airdrop).

Definition after_notes : World :=
  Eval vm_compute in snd (process_entry quiet feed_a notes empty_world).

Definition airdrop_item : Item := make_item feed_a airdrop "2026-11-01".
Definition notes_item : Item := make_item feed_a notes "2026-11-02".

Definition airdrop_message : string :=
  "💡 New Opportunity: Airdrop announcement" ++ newline ++
  "https://x/1" ++ newline ++
  "Score: 12 | Tags: airdrop,testnet,quest".

(** The disk is full for the first calls only. *)
Definition append_fails_early (w : World) (op : Op) : option string :=
  match op with
  | OpAppend _ => if (clock w <=? 3)%nat then Some "disk full" else None
  | _ => None
  end.

Definition stuck : Env := env both_channels append_fails_early.

(** TG_BOT_TOKEN is set to the empty string, over a complete configuration. *)
Definition overridden : Env :=
  {| FEEDS := [feed_a];
     NOTIFY := both_channels;
     getenv := fun name =>
       if (name =? "TG_BOT_TOKEN")%string then Some "" else None;
     feed_entries := fun _ _ => [airdrop];
     utcnow := fun _ => "2026-11-04";
     fault := never |}.

(** The world after [airdrop] when the CSV write fails, and after the feed
    is fetched again once the disk has room. *)
Definition after_disk_full : World :=
  Eval vm_compute in snd (process_entry stuck feed_a airdrop empty_world).

Definition after_retry : World :=
  Eval vm_compute in snd (fetch_feed stuck feed_a after_disk_full).

(** The world after a whole run from the empty world. *)
Definition after_run : World :=
  Eval vm_compute in snd (run_once quiet empty_world).

End Demo.

(** * Properties *)

(** ** Strings *)

Lemma prefix_iff (word text : string) :
  prefix word text = true <-> exists post, text = word ++ post.
Proof.
  revert text; induction word as [|c word IH]; intros text.
  - split; [intros _; now exists text | intros _; now destruct text].
  - destruct text as [|d text]; simpl.
    + split; [discriminate | intros [post H]; discriminate].
    + destruct (ascii_dec c d) as [->|Hcd].
      * rewrite IH. split; intros [post H]; exists post.
        -- now rewrite H.
        -- now injection H.
      * split; [discriminate | intros [post H]; injection H; congruence].
Qed.

(** [word in text] holds exactly when [text] is [pre ++ word ++ post]. *)
Lemma str_contains_iff (word text : string) :
  str_contains word text = true <-> exists pre post, text = pre ++ word ++ post.
Proof.
  induction text as [|d text IH]; cbn [str_contains].
  - rewrite orb_false_r, prefix_iff. split.
    + intros [post H]. now exists "", post.
    + intros [pre [post H]]. destruct pre; [now exists post | discriminate].
  - rewrite orb_true_iff, prefix_iff, IH. split.
    + intros [[post H] | [pre [post H]]].
      * now exists "", post.
      * exists (String d pre), post. simpl. now rewrite H.
    + intros [pre [post H]]. destruct pre as [|c pre].
      * left. now exists post.
      * right. exists pre, post. simpl in H. now injection H.
Qed.

(** ** Scorer *)

Lemma score_fold (text : string) (table : list (string * Z)) :
  forall score tags reasons,
    fold_left (score_step text) table (score, tags, reasons) =
    (score + total (map snd (hits table text)),
     (tags ++ map fst (hits table text))%list,
     (reasons ++ map (fun kv => reason_of (fst kv) (snd kv)) (hits table text))%list).
Proof.
  induction table as [|[word val] table IH]; intros score tags reasons; simpl.
  - now rewrite Z.add_0_r, !app_nil_r.
  - destruct (str_contains word text); simpl; rewrite IH.
    + now rewrite Z.add_assoc, <- !app_assoc.
    + reflexivity.
Qed.

Lemma score_loop_hits (table : list (string * Z)) (text : string) :
  score_loop table text =
  (total (map snd (hits table text)), map fst (hits table text),
   map (fun kv => reason_of (fst kv) (snd kv)) (hits table text)).
Proof. unfold score_loop. now rewrite score_fold. Qed.

(** C1: [score_item] lower-cases [title + " " + summary]; the keywords of
    the fixed table that occur in that text as a contiguous run of characters
    contribute, in table order, their weight to the score, their name to the
    tags and ["<keyword>+<weight>"] to the reasons, which are joined with
    [";"]. On ("Airdrop announcement", "join the testnet quest") the result is
    (12, [airdrop, testnet, quest], "airdrop+5;testnet+4;quest+3"). *)
Theorem score_item_keyword_sum :
  (forall title summary,
      let text := lower (title ++ " " ++ summary) in
      let matched := filter (fun kv => str_contains (fst kv) text) keywords in
      score_item title summary =
      (total (map snd matched), map fst matched,
       join ";" (map (fun kv => fst kv ++ "+" ++ str_int (snd kv)) matched)))
  /\ (forall word text,
         str_contains word text = true <->
         exists pre post, text = pre ++ word ++ post)
  /\ keywords =
     [ ("airdrop", 5); ("testnet", 4); ("quest", 3); ("reward", 2);
       ("bounty", 4); ("grant", 2); ("retrodrop", 5); ("campaign", 2);
       ("earn", 1) ]
  /\ score_item "Airdrop announcement" "join the testnet quest" =
     (12, ["airdrop"; "testnet"; "quest"], "airdrop+5;testnet+4;quest+3").
Proof.
  split; [|split; [|split]].
  - intros title summary text matched. unfold score_item. fold text.
    rewrite score_loop_hits. reflexivity.
  - exact str_contains_iff.
  - reflexivity.
  - vm_compute. reflexivity.
Qed.

(** C8: with an empty title and an empty summary the score is 0, there is no
    tag and the reason is the empty string. *)
Theorem score_item_empty : score_item "" "" = (0, [], "").
Proof.
  unfold score_item. rewrite score_loop_hits.
  change (lower ("" ++ " " ++ "")) with " ".
  assert (H : hits keywords " " = []) by reflexivity.
  rewrite H. reflexivity.
Qed.

(** ** Fingerprint *)

Lemma unhex_hex_byte (b : byte) :
  unhex_byte (hex_digit (Byte.to_N b / 16)) (hex_digit (Byte.to_N b mod 16)) = Some b.
Proof. destruct b; reflexivity. Qed.

Lemma unhexlify_hexlify (bs : list byte) : unhexlify (hexlify bs) = Some bs.
Proof.
  induction bs as [|b bs IH]; [reflexivity|].
  cbn [hexlify hex_byte append unhexlify].
  now rewrite unhex_hex_byte, IH.
Qed.

Lemma hexlify_inj (bs bs' : list byte) : hexlify bs = hexlify bs' -> bs = bs'.
Proof.
  intros H. apply (f_equal unhexlify) in H.
  rewrite !unhexlify_hexlify in H. now injection H.
Qed.

(** C3, as the code has it: the fingerprint is the hexadecimal SHA-256
    digest of the bytes of [source ++ link], nothing in between; it is a
    function of that concatenation alone, so two pairs that concatenate to
    the same string have the same fingerprint, and two pairs have the same
    fingerprint only when SHA-256 gives their concatenations the same
    digest. *)
Theorem hash_id_of_concatenation (source link source' link' : string) :
  hash_id source link = hexlify (Sha256.digest (encode (source ++ link)))
  /\ (source ++ link = source' ++ link' ->
      hash_id source link = hash_id source' link')
  /\ (hash_id source link = hash_id source' link' ->
      Sha256.digest (encode (source ++ link)) =
      Sha256.digest (encode (source' ++ link'))).
Proof.
  unfold hash_id, sha256_hexdigest. split; [reflexivity|split].
  - now intros ->.
  - apply hexlify_inj.
Qed.

(** Two pairs that split one string differently. *)
Lemma hash_id_of_concatenation_witness :
  hash_id "https://f/" "a/1" = hash_id "https://f/a" "/1"
  /\ Sha256.digest (encode ("https://f/" ++ "a/1")) =
     Sha256.digest (encode ("https://f/a" ++ "/1")).
Proof.
  pose proof (hash_id_of_concatenation "https://f/" "a/1" "https://f/a" "/1")
    as [_ [Hsame Hdigest]].
  split.
  - apply Hsame. reflexivity.
  - apply Hdigest. vm_compute. reflexivity.
Defined.

(** C3 as stated fails: two different (source, link) pairs with one
    fingerprint, whatever the hash. *)
Lemma hash_id_pairs_collide :
  ("ab", "c") <> ("a", "bc") /\ hash_id "ab" "c" = hash_id "a" "bc".
Proof. split; [discriminate | vm_compute; reflexivity]. Qed.

(** No fingerprint is the word "id" that heads the CSV file. *)
Lemma hash_id_not_header (source link : string) : hash_id source link <> "id".
Proof.
  unfold hash_id, sha256_hexdigest. intros H.
  apply (f_equal unhexlify) in H. rewrite unhexlify_hexlify in H. discriminate.
Qed.

(** ** The two sinks *)

Lemma store_steps_trans (w w1 w2 : World) :
  store_steps w w1 -> store_steps w1 w2 -> store_steps w w2.
Proof.
  intros H1 H2. induction H2 as [w1 w2 Ht Hc | w1 wa wb _ IH Hs].
  - destruct H1 as [w w1 Ht1 Hc1 | w wa w1 Hs Hl].
    + apply steps_none; congruence.
    + apply steps_more with wa; [exact Hs|].
      destruct Hl as [Ha Hb | item Hi Hn Ha Hb | item Hi Hn Ha Hb].
      * apply step_idle; congruence.
      * apply step_row with item; congruence.
      * apply step_row_record with item; congruence.
  - apply steps_more with wa; [now apply IH | exact Hs].
Qed.

Lemma store_step_steps (w w' : World) : store_step w w' -> store_steps w w'.
Proof. intros H. apply steps_more with w; [now apply steps_none | exact H]. Qed.

(** *** Keys and counts *)

Lemma has_id_app (uid : string) (t : list Row) (r : Row) :
  has_id uid (t ++ [r]) = has_id uid t || (row_id r =? uid)%string.
Proof. unfold has_id. rewrite existsb_app. simpl. now rewrite orb_false_r. Qed.

Lemma has_id_in (uid : string) (t : list Row) :
  has_id uid t = true <-> In uid (map row_id t).
Proof.
  unfold has_id. rewrite existsb_exists, in_map_iff. split.
  - intros [r [Hin Heq]]. exists r. split; [now apply String.eqb_eq | exact Hin].
  - intros [r [Heq Hin]]. exists r. split; [exact Hin | now apply String.eqb_eq].
Qed.

Lemma count_id_app (uid : string) (t : list Row) (r : Row) :
  count_id uid (t ++ [r]) =
  (count_id uid t + if (row_id r =? uid)%string then 1 else 0)%nat.
Proof.
  unfold count_id. rewrite filter_app, length_app. simpl.
  now destruct (row_id r =? uid)%string.
Qed.

Lemma count_id_absent (uid : string) (t : list Row) :
  has_id uid t = false -> count_id uid t = O.
Proof.
  unfold has_id, count_id. induction t as [|r t IH]; simpl; [reflexivity|].
  destruct (row_id r =? uid)%string; simpl; [discriminate | exact IH].
Qed.

Lemma count_id_unique (uid : string) (t : list Row) :
  NoDup (map row_id t) -> (count_id uid t <= 1)%nat.
Proof.
  induction t as [|r t IH]; simpl; intros Hnd; [unfold count_id; simpl; lia|].
  inversion Hnd as [|x l Hnotin Hnd']; subst.
  unfold count_id in *. simpl.
  destruct (row_id r =? uid)%string eqn:Heq; simpl.
  - apply String.eqb_eq in Heq. subst uid.
    assert (Habs : has_id (row_id r) t = false).
    { destruct (has_id (row_id r) t) eqn:Hh; [|reflexivity].
      apply has_id_in in Hh. contradiction. }
    apply count_id_absent in Habs. unfold count_id in Habs. rewrite Habs. lia.
  - now apply IH.
Qed.

Lemma nodup_snoc (t : list Row) (r : Row) :
  NoDup (map row_id t) -> has_id (row_id r) t = false ->
  NoDup (map row_id (t ++ [r])).
Proof.
  intros Hnd Hnew. rewrite map_app. simpl.
  apply NoDup_app.
  - exact Hnd.
  - constructor; [intros [] | constructor].
  - intros x Hx [Hr|[]]. subst x. apply has_id_in in Hx. congruence.
Qed.

Lemma filter_length_le {A : Type} (f g : A -> bool) (l : list A) :
  (forall x, In x l -> f x = true -> g x = true) ->
  (List.length (filter f l) <= List.length (filter g l))%nat.
Proof.
  induction l as [|x l IH]; simpl; intros H; [lia|].
  assert (IH' : (List.length (filter f l) <= List.length (filter g l))%nat).
  { apply IH. intros y Hy. apply H. now right. }
  destruct (f x) eqn:Hf.
  - rewrite (H x (or_introl eq_refl) Hf). simpl. lia.
  - destruct (g x); simpl; lia.
Qed.

Lemma filter_none {A : Type} (f : A -> bool) (l : list A) :
  (forall x, In x l -> f x = false) -> filter f l = [].
Proof.
  induction l as [|x l IH]; simpl; intros H; [reflexivity|].
  rewrite (H x (or_introl eq_refl)). apply IH. intros y Hy. apply H. now right.
Qed.

Lemma csv_count_append (uid : string) (item : Item) (f : option (list CsvRecord)) :
  uid <> "id" ->
  csv_count uid (Some (csv_append item f)) =
  (csv_count uid f + if (item_id item =? uid)%string then 1 else 0)%nat.
Proof.
  intros Hid. unfold csv_count, csv_append.
  assert (Hh : (record_id csv_header =? uid)%string = false).
  { apply String.eqb_neq. intros H. apply Hid. now rewrite <- H. }
  destruct f as [records|].
  - rewrite filter_app, length_app. cbn [filter].
    change (record_id (csv_fields item)) with (item_id item).
    now destruct (item_id item =? uid)%string.
  - cbn [filter]. rewrite Hh.
    change (record_id (csv_fields item)) with (item_id item).
    now destruct (item_id item =? uid)%string.
Qed.

(** *** The invariant of the sinks *)

Lemma consistent_empty : consistent empty_world.
Proof.
  repeat split; simpl.
  - constructor.
  - intros r [].
  - intros records rec H. discriminate.
Qed.

Lemma consistent_step (w w' : World) :
  consistent w -> store_step w w' -> consistent w'.
Proof.
  intros (Hnd & Hfp & Hcsv) [Ht Hc | item Hi Hn Ht Hc | item Hi Hn Ht Hc].
  - unfold consistent. rewrite Ht, Hc. auto.
  - unfold consistent. rewrite Ht, Hc. repeat split.
    + now apply nodup_snoc.
    + intros r Hr. apply in_app_or in Hr. destruct Hr as [Hr|[Hr|[]]].
      * now apply Hfp.
      * subst r. exact Hi.
    + intros records rec Hf Hin.
      destruct (Hcsv records rec Hf Hin) as [Hh|Hh]; [now left | right].
      rewrite has_id_app, Hh. reflexivity.
  - unfold consistent. rewrite Ht, Hc. repeat split.
    + now apply nodup_snoc.
    + intros r Hr. apply in_app_or in Hr. destruct Hr as [Hr|[Hr|[]]].
      * now apply Hfp.
      * subst r. exact Hi.
    + intros records rec Hf Hin. injection Hf as <-.
      assert (Hnew : has_id (record_id (csv_fields item))
                       (table w ++ [db_values item]) = true).
      { rewrite has_id_app. change (record_id (csv_fields item)) with (item_id item).
        simpl. rewrite String.eqb_refl. apply orb_true_r. }
      unfold csv_append in Hin. destruct (csv_file w) as [old|] eqn:Hold.
      * apply in_app_or in Hin. destruct Hin as [Hin|[Hin|[]]].
        -- destruct (Hcsv old rec eq_refl Hin) as [Hh|Hh]; [now left | right].
           rewrite has_id_app, Hh. reflexivity.
        -- subst rec. now right.
      * destruct Hin as [Hin|[Hin|[]]]; subst rec; [now left | now right].
Qed.

Lemma consistent_steps (w w' : World) :
  consistent w -> store_steps w w' -> consistent w'.
Proof.
  intros Hc Hs. induction Hs as [w w' Ht Hf | w w1 w2 _ IH Hstep].
  - apply consistent_step with w; [exact Hc | now apply step_idle].
  - apply consistent_step with w1; [now apply IH | exact Hstep].
Qed.

(** In a consistent world an entry that is not in the table is not in the
    file either. *)
Lemma consistent_csv_absent (uid : string) (w : World) :
  consistent w -> uid <> "id" -> has_id uid (table w) = false ->
  csv_count uid (csv_file w) = O.
Proof.
  intros (_ & _ & Hcsv) Hid Hnew. unfold csv_count.
  destruct (csv_file w) as [records|] eqn:Hf; [|reflexivity].
  specialize (Hcsv records).
  assert (H : forall rec, In rec records ->
                (record_id rec =? uid)%string = false).
  { intros rec Hin. apply String.eqb_neq. intros Heq.
    destruct (Hcsv rec eq_refl Hin) as [Hh|Hh].
    - subst rec. apply Hid. now rewrite <- Heq.
    - rewrite Heq in Hh. congruence. }
  now rewrite (filter_none _ _ H).
Qed.

Lemma settled_step (uid : string) (rows records : nat) (w w' : World) :
  uid <> "id" ->
  settled uid rows records w -> store_step w w' -> settled uid rows records w'.
Proof.
  intros Hid (Hh & Hr & Hc) [Ht Hf | item Hi Hn Ht Hf | item Hi Hn Ht Hf];
    unfold settled; rewrite Ht, Hf.
  - auto.
  - assert (Hne : (row_id (db_values item) =? uid)%string = false).
    { apply String.eqb_neq. simpl. intros Heq. congruence. }
    rewrite has_id_app, count_id_app, Hne, Hh. repeat split; auto; lia.
  - assert (Hne : (item_id item =? uid)%string = false).
    { apply String.eqb_neq. intros Heq. congruence. }
    rewrite has_id_app, count_id_app, (csv_count_append _ _ _ Hid).
    simpl row_id. rewrite Hne, Hh. repeat split; auto; lia.
Qed.

Lemma settled_steps (uid : string) (rows records : nat) (w w' : World) :
  uid <> "id" ->
  settled uid rows records w -> store_steps w w' -> settled uid rows records w'.
Proof.
  intros Hid Hs Hsteps. induction Hsteps as [w w' Ht Hf | w w1 w2 _ IH Hstep].
  - apply settled_step with w; [exact Hid | exact Hs | now apply step_idle].
  - apply settled_step with w1; [exact Hid | now apply IH | exact Hstep].
Qed.

(** Rows are never removed nor changed. *)
Lemma rows_kept (r : Row) (w w' : World) :
  In r (table w) -> store_steps w w' -> In r (table w').
Proof.
  intros Hin Hsteps. induction Hsteps as [w w' Ht Hf | w w1 w2 _ IH Hstep].
  - now rewrite Ht.
  - specialize (IH Hin).
    destruct Hstep as [Ht Hf | item Hi Hn Ht Hf | item Hi Hn Ht Hf]; rewrite Ht;
      [exact IH | apply in_or_app; now left | apply in_or_app; now left].
Qed.

Section AgentProperties.

Variable E : Env.

(** *** Fields of the item *)

Lemma make_item_id url entry now :
  item_id (make_item url entry now) = entry_uid url entry.
Proof. unfold make_item. now destruct (score_item _ _) as [[? ?] ?]. Qed.

Lemma make_item_source url entry now :
  item_source (make_item url entry now) = url.
Proof. unfold make_item. now destruct (score_item _ _) as [[? ?] ?]. Qed.

Lemma make_item_url url entry now :
  item_url (make_item url entry now) = get_or (entry_link entry) "".
Proof. unfold make_item. now destruct (score_item _ _) as [[? ?] ?]. Qed.

Lemma make_item_score url entry now :
  item_score (make_item url entry now) =
  fst (fst (score_item (strip (get_or (entry_title entry) ""))
                       (strip (get_or (entry_summary entry) "")))).
Proof. unfold make_item. now destruct (score_item _ _) as [[? ?] ?]. Qed.

Lemma make_item_fingerprint url entry now :
  item_id (make_item url entry now) =
  hash_id (item_source (make_item url entry now)) (item_url (make_item url entry now)).
Proof. now rewrite make_item_id, make_item_source, make_item_url. Qed.

(** *** What each operation does *)

Lemma call_world (op : Op) (w : World) : snd (call E op w) = tick w.
Proof. unfold call. now destruct (fault E w op). Qed.

Lemma requests_post_run (r : Request) (w : World) :
  requests_post E r w =
  (match fault E (with_posted (posted w ++ [r]) w) (OpPost r) with
   | Some e => Raise e
   | None => Ret tt
   end, tick (with_posted (posted w ++ [r]) w)).
Proof.
  unfold requests_post, bind, modify, call. simpl.
  now destruct (fault E _ _).
Qed.

Lemma notify_telegram_posts (text : string) (w : World) :
  posted_more w (snd (notify_telegram E text w)) (telegram_deliveries E text).
Proof.
  unfold notify_telegram, telegram_deliveries, posted_more.
  destruct (telegram (NOTIFY E)) as [tg|]; simpl;
    [|now rewrite app_nil_r].
  destruct (tg_enabled tg); simpl; [|now rewrite app_nil_r].
  destruct (truthy _ && truthy _); simpl; [|now rewrite app_nil_r].
  rewrite requests_post_run. simpl. auto.
Qed.

Lemma notify_discord_posts (text : string) (w : World) :
  posted_more w (snd (notify_discord E text w)) (discord_deliveries E text).
Proof.
  unfold notify_discord, discord_deliveries, posted_more.
  destruct (discord (NOTIFY E)) as [dc|]; simpl;
    [|now rewrite app_nil_r].
  destruct (dc_enabled dc); simpl; [|now rewrite app_nil_r].
  destruct (truthy _); simpl; [|now rewrite app_nil_r].
  rewrite requests_post_run. simpl. auto.
Qed.

(** [notify] touches neither sink nor the log. *)
Lemma notify_store (item : Item) (w : World) :
  table (snd (notify E item w)) = table w
  /\ csv_file (snd (notify E item w)) = csv_file w
  /\ stdout (snd (notify E item w)) = stdout w.
Proof.
  unfold notify, bind.
  destruct (notify_telegram_posts (message_text item) w) as (Ht & Hc & Ho & _).
  destruct (notify_telegram E (message_text item) w) as [[[]|e] w1]; simpl in *.
  - destruct (notify_discord_posts (message_text item) w1) as (Ht' & Hc' & Ho' & _).
    repeat split; congruence.
  - auto.
Qed.

(** *** One entry *)

Lemma process_entry_select_fault url entry e w :
  fault E w (OpSelect (entry_uid url entry)) = Some e ->
  process_entry E url entry w = (Raise e, tick w).
Proof.
  intros H. unfold process_entry, select_id, bind, call. now rewrite H.
Qed.

Lemma process_entry_seen url entry w :
  fault E w (OpSelect (entry_uid url entry)) = None ->
  has_id (entry_uid url entry) (table w) = true ->
  process_entry E url entry w = (Ret tt, tick w).
Proof.
  intros Hs Hi. unfold process_entry, select_id, bind, call, get_world, ret.
  rewrite Hs. cbv beta iota. cbn [table tick]. now rewrite Hi.
Qed.

Lemma process_entry_new url entry w :
  fault E w (OpSelect (entry_uid url entry)) = None ->
  has_id (entry_uid url entry) (table w) = false ->
  process_entry E url entry w =
  persist_and_notify E (make_item url entry (utcnow E (tick w))) (tick (tick w)).
Proof.
  intros Hs Hi.
  unfold process_entry, select_id, bind, call, get_world, ret, utcnow_isoformat.
  rewrite Hs. cbv beta iota. cbn [table tick]. rewrite Hi. reflexivity.
Qed.

Lemma insert_new (r : Row) (t : list Row) :
  has_id (row_id r) t = false -> insert_or_ignore r t = (t ++ [r])%list.
Proof. intros H. unfold insert_or_ignore. now rewrite H. Qed.

Lemma insert_known (r : Row) (t : list Row) :
  has_id (row_id r) t = true -> insert_or_ignore r t = t.
Proof. intros H. unfold insert_or_ignore. now rewrite H. Qed.

(** The sinks after [persist_and_notify], whatever raises. *)
Lemma persist_and_notify_store (item : Item) (w : World) :
  item_id item = hash_id (item_source item) (item_url item) ->
  has_id (item_id item) (table w) = false ->
  store_step w (snd (persist_and_notify E item w)).
Proof.
  intros Hfp Hnew.
  unfold persist_and_notify, save_to_db, save_to_csv, bind, call, modify,
    get_world, print.
  destruct (fault E w (OpInsert (db_values item))) as [e|]; simpl.
  { now apply step_idle. }
  rewrite insert_new by exact Hnew.
  destruct (fault E _ (OpAppend item)) as [e|]; simpl.
  { now apply step_row with item. }
  match goal with
  | |- context [if ?c then _ else _] => destruct c
  end.
  - match goal with
    | |- context [notify E item ?w0] =>
        destruct (notify_store item w0) as (Ht & Hc & _);
        destruct (notify E item w0) as [[[]|e] w1]
    end; simpl in *; apply step_row_record with item; auto.
  - simpl. now apply step_row_record with item.
Qed.

Lemma process_entry_store url entry w :
  store_step w (snd (process_entry E url entry w)).
Proof.
  destruct (fault E w (OpSelect (entry_uid url entry))) as [e|] eqn:Hs.
  { rewrite (process_entry_select_fault _ _ _ _ Hs). now apply step_idle. }
  destruct (has_id (entry_uid url entry) (table w)) eqn:Hi.
  { rewrite (process_entry_seen _ _ _ Hs Hi). now apply step_idle. }
  rewrite (process_entry_new _ _ _ Hs Hi).
  pose proof (persist_and_notify_store
                (make_item url entry (utcnow E (tick w))) (tick (tick w))
                (make_item_fingerprint _ _ _)) as H.
  rewrite make_item_id in H. specialize (H Hi).
  destruct H as [Ha Hb | item Hf Hn Ha Hb | item Hf Hn Ha Hb].
  - now apply step_idle.
  - now apply step_row with item.
  - now apply step_row_record with item.
Qed.

(** *** Loops *)


Lemma for_each_store {A : Type} (xs : list A) (body : A -> M unit) :
  (forall x w, store_steps w (snd (body x w))) ->
  forall w, store_steps w (snd (for_each xs body w)).
Proof.
  intros Hb. induction xs as [|x xs IH]; intros w; simpl.
  - now apply steps_none.
  - unfold bind. pose proof (Hb x w) as Hx.
    destruct (body x w) as [[[]|e] w1]; simpl in *.
    + apply store_steps_trans with w1; [exact Hx | apply IH].
    + exact Hx.
Qed.

Lemma fetch_feed_store url w : store_steps w (snd (fetch_feed E url w)).
Proof.
  unfold fetch_feed, try_except, bind, feedparser_parse, print, modify.
  destruct (fault E w (OpParse url)) as [e|]; simpl.
  { now apply steps_none. }
  pose proof (for_each_store (feed_entries E w url) (process_entry E url)
                (fun x w0 => store_step_steps _ _ (process_entry_store url x w0))
                (tick w)) as H.
  destruct (for_each _ _ _) as [[[]|e] w1]; simpl in *.
  - apply store_steps_trans with (tick w); [now apply steps_none | exact H].
  - apply store_steps_trans with w1; [|now apply steps_none].
    apply store_steps_trans with (tick w); [now apply steps_none | exact H].
Qed.



Lemma run_once_feeds (w : World) :
  run_once E w = for_each (FEEDS E) (fetch_feed E) (header_world E w).
Proof. reflexivity. Qed.

Lemma run_once_store w : store_steps w (snd (run_once E w)).
Proof.
  rewrite run_once_feeds.
  apply store_steps_trans with (header_world E w); [now apply steps_none|].
  apply for_each_store. intros url w0. apply fetch_feed_store.
Qed.

Lemma runs_store (w w' : World) : runs E w w' -> store_steps w w'.
Proof.
  induction 1 as [w | w w' url entry _ IH | w w' url _ IH | w w' _ IH].
  - now apply steps_none.
  - apply steps_more with w'; [exact IH | apply process_entry_store].
  - apply store_steps_trans with w'; [exact IH | apply fetch_feed_store].
  - apply store_steps_trans with w'; [exact IH | apply run_once_store].
Qed.

(** *** Feeds that fail *)


(** *** Entries that fail *)

Lemma insert_fault_raises (item : Item) (e : string) (w : World) :
  fault E w (OpInsert (db_values item)) = Some e ->
  persist_and_notify E item w = (Raise e, tick w).
Proof.
  intros H. unfold persist_and_notify, save_to_db, bind, call. now rewrite H.
Qed.

Lemma append_fault_raises (item : Item) (e : string) (w : World) :
  fault E w (OpInsert (db_values item)) = None ->
  fault E (with_table (insert_or_ignore (db_values item) (table w)) (tick w))
        (OpAppend item) = Some e ->
  fst (persist_and_notify E item w) = Raise e.
Proof.
  intros H1 H2.
  unfold persist_and_notify, save_to_db, save_to_csv, bind, call, modify, get_world.
  rewrite H1. simpl. now rewrite H2.
Qed.


(** *** Notifications *)

Lemma notify_telegram_run (text : string) (w : World) :
  notify_telegram E text w =
  match telegram_deliveries E text with
  | [] => (Ret tt, w)
  | r :: _ => requests_post E r w
  end.
Proof.
  unfold notify_telegram, telegram_deliveries.
  destruct (telegram (NOTIFY E)) as [tg|]; [|reflexivity].
  destruct (tg_enabled tg); [|reflexivity]. simpl.
  now destruct (truthy _ && truthy _).
Qed.

Lemma notify_discord_run (text : string) (w : World) :
  notify_discord E text w =
  match discord_deliveries E text with
  | [] => (Ret tt, w)
  | r :: _ => requests_post E r w
  end.
Proof.
  unfold notify_discord, discord_deliveries.
  destruct (discord (NOTIFY E)) as [dc|]; [|reflexivity].
  destruct (dc_enabled dc); [|reflexivity]. simpl.
  now destruct (truthy _).
Qed.

Lemma telegram_lacking_delivers_nothing (text : string) :
  telegram_lacks_credentials E = true -> telegram_deliveries E text = [].
Proof.
  unfold telegram_lacks_credentials, telegram_deliveries.
  destruct (telegram (NOTIFY E)) as [tg|]; [|reflexivity].
  destruct (tg_enabled tg); [|discriminate]. simpl.
  now destruct (truthy _ && truthy _).
Qed.

Lemma discord_lacking_delivers_nothing (text : string) :
  discord_lacks_credentials E = true -> discord_deliveries E text = [].
Proof.
  unfold discord_lacks_credentials, discord_deliveries.
  destruct (discord (NOTIFY E)) as [dc|]; [|reflexivity].
  destruct (dc_enabled dc); [|discriminate]. simpl.
  now destruct (truthy _).
Qed.

(** C10: a channel that is enabled while a credential of it resolves to a
    missing or empty value is passed over: [notify] makes no call for it and
    raises nothing on its account, and does for the other channel exactly
    what it would do alone. *)
Theorem notify_skips_channel_without_credentials (item : Item) (w : World) :
  let text := message_text item in
  (telegram_lacks_credentials E = true ->
     notify E item w = notify_discord E text w
     /\ posted (snd (notify E item w)) = (posted w ++ discord_deliveries E text)%list)
  /\ (discord_lacks_credentials E = true ->
       notify E item w = notify_telegram E text w
       /\ posted (snd (notify E item w)) = (posted w ++ telegram_deliveries E text)%list)
  /\ (telegram_lacks_credentials E = true -> discord_lacks_credentials E = true ->
       notify E item w = (Ret tt, w)).
Proof.
  intros text.
  assert (Htg : telegram_lacks_credentials E = true ->
                notify E item w = notify_discord E text w).
  { intros H. unfold notify, bind. fold text.
    now rewrite notify_telegram_run, (telegram_lacking_delivers_nothing _ H). }
  assert (Hdc : discord_lacks_credentials E = true ->
                notify E item w = notify_telegram E text w).
  { intros H. unfold notify, bind. fold text.
    destruct (notify_telegram E text w) as [[[]|e] w1]; [|reflexivity].
    now rewrite notify_discord_run, (discord_lacking_delivers_nothing _ H). }
  split; [|split].
  - intros H. split; [now apply Htg|]. rewrite (Htg H).
    apply (notify_discord_posts text w).
  - intros H. split; [now apply Hdc|]. rewrite (Hdc H).
    apply (notify_telegram_posts text w).
  - intros H1 H2. rewrite (Htg H1).
    now rewrite notify_discord_run, (discord_lacking_delivers_nothing _ H2).
Qed.

Lemma telegram_deliveries_owed (text : string) :
  telegram_deliveries E text = telegram_owed E text.
Proof.
  unfold telegram_deliveries, telegram_owed, os_getenv, resolved.
  destruct (telegram (NOTIFY E)) as [tg|]; [|reflexivity].
  destruct (tg_enabled tg); [|reflexivity].
  destruct (getenv E "TG_BOT_TOKEN") as [[|a token]|];
    destruct (getenv E "TG_CHAT_ID") as [[|b chat]|];
    destruct (tg_bot_token tg) as [[|a' token']|];
    destruct (tg_chat_id tg) as [[|b' chat']|]; reflexivity.
Qed.

Lemma discord_deliveries_owed (text : string) :
  discord_deliveries E text = discord_owed E text.
Proof.
  unfold discord_deliveries, discord_owed, os_getenv, resolved.
  destruct (discord (NOTIFY E)) as [dc|]; [|reflexivity].
  destruct (dc_enabled dc); [|reflexivity].
  destruct (getenv E "DISCORD_WEBHOOK_URL") as [[|a hook]|];
    destruct (dc_webhook_url dc) as [[|a' hook']|]; reflexivity.
Qed.

(** When the Telegram request, if there is one, returns, [notify] has made
    one request to each channel that is enabled and has its credentials,
    Telegram first. *)
Lemma notify_posts (item : Item) (w : World) :
  (forall w' r, In r (telegram_deliveries E (message_text item)) ->
                fault E w' (OpPost r) = None) ->
  posted (snd (notify E item w)) =
  (posted w ++ deliveries E (message_text item))%list.
Proof.
  intros Hok. unfold notify, bind, deliveries.
  pose proof (notify_telegram_posts (message_text item) w) as Ht.
  assert (Hr : fst (notify_telegram E (message_text item) w) = Ret tt).
  { rewrite notify_telegram_run.
    destruct (telegram_deliveries E _) as [|r l]; [reflexivity|].
    rewrite requests_post_run. simpl. rewrite Hok; [reflexivity | now left]. }
  destruct (notify_telegram E (message_text item) w) as [[[]|e] w1];
    simpl in Hr; [|discriminate]. simpl in Ht.
  destruct Ht as (_ & _ & _ & T4).
  destruct (notify_discord_posts (message_text item) w1) as (_ & _ & _ & D4).
  now rewrite D4, T4, app_assoc.
Qed.

(** *** A new entry *)

(** Below the threshold nothing is posted, whatever else happens. *)
Lemma persist_and_notify_quiet (item : Item) (w : World) :
  (3 <=? item_score item) = false ->
  posted (snd (persist_and_notify E item w)) = posted w.
Proof.
  intros Hlow.
  unfold persist_and_notify, save_to_db, save_to_csv, bind, call, modify,
    get_world, print, ret.
  destruct (fault E w (OpInsert (db_values item))) as [e|]; simpl; [reflexivity|].
  destruct (fault E _ (OpAppend item)) as [e|]; simpl; [reflexivity|].
  rewrite Hlow. reflexivity.
Qed.

(** The world [persist_and_notify] returns, when it returns. *)
Lemma persist_and_notify_returned (item : Item) (w w' : World) :
  persist_and_notify E item w = (Ret tt, w') ->
  table w' = insert_or_ignore (db_values item) (table w)
  /\ csv_file w' = Some (csv_append item (csv_file w))
  /\ stdout w' = (stdout w ++ [log_line item])%list.
Proof.
  unfold persist_and_notify, save_to_db, save_to_csv, bind, call, modify,
    get_world, print, ret.
  destruct (fault E w (OpInsert (db_values item))) as [e|]; simpl; [discriminate|].
  destruct (fault E _ (OpAppend item)) as [e|]; simpl; [discriminate|].
  destruct (3 <=? item_score item).
  - match goal with
    | |- context [notify E item ?w0] =>
        destruct (notify_store item w0) as (Ht & Hc & Ho);
        destruct (notify E item w0) as [[[]|e] wn]
    end; simpl in *; [|discriminate].
    intros H. injection H as <-. simpl. rewrite Ht, Hc, Ho. auto.
  - intros H. injection H as <-. simpl. auto.
Qed.

(** When the two writes return and the Telegram request, if there is one,
    returns: the requests posted. *)
Lemma persist_and_notify_posts (item : Item) (w : World) :
  (forall w', fault E w' (OpInsert (db_values item)) = None) ->
  (forall w', fault E w' (OpAppend item) = None) ->
  (forall w' r, In r (telegram_deliveries E (message_text item)) ->
                fault E w' (OpPost r) = None) ->
  posted (snd (persist_and_notify E item w)) =
  (posted w ++
   if 3 <=? item_score item then deliveries E (message_text item) else [])%list.
Proof.
  intros Hdb Hcsv Hpost.
  unfold persist_and_notify, save_to_db, save_to_csv, bind, call, modify,
    get_world, print, ret.
  rewrite Hdb. cbn [fst snd]. rewrite Hcsv. cbn [fst snd].
  destruct (3 <=? item_score item).
  - match goal with
    | |- context [notify E item ?w0] =>
        pose proof (notify_posts item w0 Hpost) as Hp;
        destruct (notify E item w0) as [[[]|e] wn]
    end; cbn [fst snd posted with_stdout] in *; exact Hp.
  - cbn [fst snd posted with_stdout with_csv with_table tick].
    now rewrite app_nil_r.
Qed.

(** C4: an entry that is new and is persisted is notified exactly when its
    score is at least 3.  Below 3 no request is posted, whatever else
    happens.  From 3 on the requests posted for it are the form POST to the
    Telegram endpoint of the bot token, with the chat id and the message,
    when Telegram is enabled and has both credentials, then the JSON POST of
    the message to the Discord webhook when Discord is enabled and has its
    webhook (the Telegram request, if there is one, having returned); the
    message is the fixed template over the title, the URL, the score and the
    tags joined with commas. *)
Theorem notify_threshold (url : string) (entry : Entry) (w : World) :
  let item := make_item url entry (utcnow E (tick w)) in
  let text :=
    "💡 New Opportunity: " ++ item_title item ++ newline ++
    item_url item ++ newline ++
    "Score: " ++ str_int (item_score item) ++
    " | Tags: " ++ join "," (item_tags item) in
  (item_score item < 3 ->
     posted (snd (process_entry E url entry w)) = posted w)
  /\ (fault E w (OpSelect (entry_uid url entry)) = None ->
       has_id (entry_uid url entry) (table w) = false ->
       (forall w', fault E w' (OpInsert (db_values item)) = None) ->
       (forall w', fault E w' (OpAppend item) = None) ->
       (forall w' r, In r (telegram_owed E text) -> fault E w' (OpPost r) = None) ->
       posted (snd (process_entry E url entry w)) =
       (posted w ++
        if 3 <=? item_score item
        then telegram_owed E text ++ discord_owed E text
        else [])%list).
Proof.
  intros item text. split.
  - intros Hlow.
    destruct (fault E w (OpSelect (entry_uid url entry))) as [e|] eqn:Hs.
    { now rewrite (process_entry_select_fault _ _ _ _ Hs). }
    destruct (has_id (entry_uid url entry) (table w)) eqn:Hi.
    { now rewrite (process_entry_seen _ _ _ Hs Hi). }
    rewrite (process_entry_new _ _ _ Hs Hi). fold item.
    rewrite persist_and_notify_quiet; [reflexivity|].
    apply Z.leb_gt. exact Hlow.
  - intros Hs Hi Hdb Hcsv Hpost.
    rewrite (process_entry_new _ _ _ Hs Hi). fold item.
    rewrite <- telegram_deliveries_owed, <- discord_deliveries_owed.
    change text with (message_text item).
    rewrite (persist_and_notify_posts item (tick (tick w)) Hdb Hcsv);
      [reflexivity|].
    intros w' r Hr. apply Hpost.
    rewrite <- telegram_deliveries_owed. exact Hr.
Qed.

(** *** The CSV file *)

Lemma save_to_csv_run (item : Item) (w : World) :
  fault E w (OpAppend item) = None ->
  save_to_csv E item w =
  (Ret tt, with_csv (Some (csv_append item (csv_file w))) (tick w)).
Proof.
  intros H. unfold save_to_csv, bind, get_world, call, modify. now rewrite H.
Qed.

(** C7: [save_to_csv] writes the header only when the file does not exist
    yet: however many items are appended, a file that did not exist starts
    with the header, once, and a file that existed gets no header; each item
    adds one record at the end, and so does each new entry that is processed,
    while an entry already stored adds nothing. *)
Theorem csv_header_written_once :
  (forall (items : list Item) (w : World),
      (forall w' item, fault E w' (OpAppend item) = None) ->
      exists w',
        for_each items (save_to_csv E) w = (Ret tt, w')
        /\ csv_file w' =
           match items with
           | [] => csv_file w
           | _ :: _ =>
               Some ((match csv_file w with
                      | None => [csv_header]
                      | Some records => records
                      end) ++ map csv_fields items)%list
           end)
  /\ (forall (url : string) (entry : Entry) (w w1 : World),
         has_id (entry_uid url entry) (table w) = false ->
         process_entry E url entry w = (Ret tt, w1) ->
         csv_file w1 =
         Some ((match csv_file w with
                | None => [csv_header]
                | Some records => records
                end) ++ [csv_fields (make_item url entry (utcnow E (tick w)))])%list)
  /\ (forall (url : string) (entry : Entry) (w : World),
         has_id (entry_uid url entry) (table w) = true ->
         csv_file (snd (process_entry E url entry w)) = csv_file w).
Proof.
  split; [|split].
  - intros items w Hok. revert w. induction items as [|item items IH]; intros w.
    + exists w. split; reflexivity.
    + simpl for_each. unfold bind. rewrite (save_to_csv_run item w (Hok w item)).
      destruct (IH (with_csv (Some (csv_append item (csv_file w))) (tick w)))
        as (w' & Hrun & Hfile).
      exists w'. split; [exact Hrun|]. rewrite Hfile. simpl csv_file.
      destruct items as [|next items].
      * unfold csv_append. now destruct (csv_file w).
      * unfold csv_append. destruct (csv_file w) as [records|]; simpl.
        -- now rewrite <- app_assoc.
        -- reflexivity.
  - intros url entry w w1 Hnew Hrun.
    destruct (fault E w (OpSelect (entry_uid url entry))) as [e|] eqn:Hs.
    { rewrite (process_entry_select_fault _ _ _ _ Hs) in Hrun. discriminate. }
    rewrite (process_entry_new _ _ _ Hs Hnew) in Hrun.
    apply persist_and_notify_returned in Hrun. destruct Hrun as (_ & Hc & _).
    rewrite Hc. unfold csv_append. cbn [csv_file tick].
    now destruct (csv_file w).
  - intros url entry w Hseen.
    destruct (fault E w (OpSelect (entry_uid url entry))) as [e|] eqn:Hs.
    + now rewrite (process_entry_select_fault _ _ _ _ Hs).
    + now rewrite (process_entry_seen _ _ _ Hs Hseen).
Qed.

(** *** Entries seen before *)

Lemma has_id_kept (uid : string) (w w' : World) :
  has_id uid (table w) = true -> store_steps w w' ->
  has_id uid (table w') = true.
Proof.
  intros H Hs. apply has_id_in in H. apply in_map_iff in H.
  destruct H as (r & Hr & Hin). apply has_id_in. apply in_map_iff.
  exists r. split; [exact Hr | now apply rows_kept with w].
Qed.

Lemma entry_uid_not_header url entry : entry_uid url entry <> "id".
Proof. apply hash_id_not_header. Qed.

(** An entry whose processing returned is in the table. *)
Lemma process_entry_returned_stored url entry w :
  fst (process_entry E url entry w) = Ret tt ->
  has_id (entry_uid url entry) (table (snd (process_entry E url entry w))) = true.
Proof.
  destruct (fault E w (OpSelect (entry_uid url entry))) as [e|] eqn:Hs.
  { rewrite (process_entry_select_fault _ _ _ _ Hs). discriminate. }
  destruct (has_id (entry_uid url entry) (table w)) eqn:Hi.
  { rewrite (process_entry_seen _ _ _ Hs Hi). intros _. exact Hi. }
  rewrite (process_entry_new _ _ _ Hs Hi). intros Hr.
  destruct (persist_and_notify E _ _) as [[[]|e] w'] eqn:Hrun; [|discriminate].
  apply persist_and_notify_returned in Hrun. destruct Hrun as (Ht & _ & _).
  simpl. rewrite Ht. simpl table. rewrite insert_new.
  - rewrite has_id_app. simpl row_id. rewrite make_item_id, String.eqb_refl.
    apply orb_true_r.
  - simpl row_id. now rewrite make_item_id.
Qed.

(** C2: an entry that is processed when its fingerprint is not stored yet
    gets one row and one record; whatever the agent does afterwards, in this
    run or a later one, an entry with the same source and link is passed
    over (nothing is scored, posted, written or printed), the row and the
    record stay one each, and the row first stored stays as it was: an
    insert under a stored key changes nothing. *)
Theorem dedup_one_row_one_record
  (url : string) (entry again : Entry) (w w1 w2 : World) :
  consistent w ->
  has_id (entry_uid url entry) (table w) = false ->
  process_entry E url entry w = (Ret tt, w1) ->
  runs E w1 w2 ->
  entry_link again = entry_link entry ->
  fault E w2 (OpSelect (entry_uid url entry)) = None ->
  let uid := entry_uid url entry in
  let first := db_values (make_item url entry (utcnow E (tick w))) in
  process_entry E url again w2 = (Ret tt, tick w2)
  /\ count_id uid (table w2) = 1%nat
  /\ csv_count uid (csv_file w2) = 1%nat
  /\ In first (table w2)
  /\ (forall item, item_id item = uid ->
        table (snd (save_to_db E item w2)) = table w2).
Proof.
  intros Hcons Hnew Hfirst Hruns Hlink Hsel uid first.
  assert (Hs : fault E w (OpSelect uid) = None).
  { destruct (fault E w (OpSelect uid)) as [e|] eqn:Hs; [|reflexivity].
    unfold uid in Hs. rewrite (process_entry_select_fault _ _ _ _ Hs) in Hfirst.
    discriminate. }
  rewrite (process_entry_new _ _ _ Hs Hnew) in Hfirst.
  apply persist_and_notify_returned in Hfirst.
  destruct Hfirst as (Ht & Hc & _). simpl table in Ht. simpl csv_file in Hc.
  assert (Hrow : row_id first = uid) by (unfold first; simpl; apply make_item_id).
  rewrite insert_new in Ht by (fold first; rewrite Hrow; exact Hnew).
  fold first in Ht.
  assert (Hset : settled uid 1 1 w1).
  { unfold settled, uid in *. rewrite Ht, Hc, has_id_app, count_id_app.
    rewrite (csv_count_append _ _ _ (entry_uid_not_header url entry)).
    rewrite make_item_id, Hrow, String.eqb_refl.
    rewrite (count_id_absent _ _ Hnew).
    rewrite (consistent_csv_absent _ w Hcons
               (entry_uid_not_header url entry) Hnew).
    rewrite orb_true_r. auto. }
  pose proof (runs_store _ _ Hruns) as Hsteps.
  destruct (settled_steps uid 1 1 w1 w2 (entry_uid_not_header url entry)
              Hset Hsteps) as (Hh & Hr & Hf).
  assert (Huid : entry_uid url again = uid).
  { unfold uid, entry_uid. now rewrite Hlink. }
  split; [|split; [|split; [|split]]].
  - apply process_entry_seen; rewrite Huid; assumption.
  - exact Hr.
  - exact Hf.
  - apply rows_kept with w1; [|exact Hsteps].
    rewrite Ht. apply in_or_app. right. now left.
  - intros item Hitem. unfold save_to_db, bind, call, modify.
    destruct (fault E w2 (OpInsert (db_values item))) as [e|]; simpl;
      [reflexivity|].
    apply insert_known. simpl row_id. now rewrite Hitem.
Qed.

Lemma append_empty (s : string) : s ++ "" = s.
Proof. induction s as [|c s IH]; simpl; [reflexivity | now rewrite IH]. Qed.

(** C9: an entry without a link is fingerprinted with the empty string for
    its link, that is by the SHA-256 of the feed URL alone, so all such
    entries of a feed have one fingerprint; the table never holds more than
    one row of the feed with an empty url, and once one such entry has been
    processed every later one is passed over, whatever its title and
    summary. *)
Theorem linkless_entries_collapse
  (url : string) (first later : Entry) (w0 w : World) :
  entry_link first = None ->
  entry_link later = None ->
  entry_uid url first = sha256_hexdigest (encode url)
  /\ entry_uid url later = entry_uid url first
  /\ (consistent w0 -> runs E w0 w ->
       (List.length
          (filter (fun r => (row_source r =? url)%string && (row_url r =? "")%string)
                  (table w)) <= 1)%nat)
  /\ (fst (process_entry E url first w0) = Ret tt ->
       runs E (snd (process_entry E url first w0)) w ->
       fault E w (OpSelect (entry_uid url later)) = None ->
       process_entry E url later w = (Ret tt, tick w)).
Proof.
  intros Hfirst Hlater.
  assert (Hsame : entry_uid url later = entry_uid url first).
  { unfold entry_uid. now rewrite Hfirst, Hlater. }
  split; [|split; [exact Hsame|split]].
  - unfold entry_uid, hash_id. rewrite Hfirst. simpl get_or.
    now rewrite append_empty.
  - intros Hcons Hruns.
    pose proof (consistent_steps _ _ Hcons (runs_store _ _ Hruns))
      as (Hnd & Hfp & _).
    apply Nat.le_trans with (count_id (hash_id url "") (table w)).
    + unfold count_id. apply filter_length_le. intros r Hin Hr.
      apply andb_true_iff in Hr. destruct Hr as [Hsrc Hurl].
      apply String.eqb_eq in Hsrc, Hurl. apply String.eqb_eq.
      now rewrite (Hfp r Hin), Hsrc, Hurl.
    + now apply count_id_unique.
  - intros Hret Hruns Hsel.
    apply process_entry_seen; [exact Hsel|]. rewrite Hsame.
    apply has_id_kept with (snd (process_entry E url first w0)).
    + now apply process_entry_returned_stored.
    + now apply runs_store.
Qed.

End AgentProperties.


(** * The concrete runs, checked *)



(** With no usable credential nothing happens; with Telegram lacking its
    token the Discord request alone is posted. *)
Lemma notify_skips_channel_without_credentials_witness :
  notify Demo.bare Demo.airdrop_item empty_world = (Ret tt, empty_world)
  /\ posted (snd (notify Demo.half Demo.airdrop_item empty_world)) =
     [discord_request "https://d/hook" Demo.airdrop_message].
Proof.
  split.
  - apply (notify_skips_channel_without_credentials Demo.bare
             Demo.airdrop_item empty_world); reflexivity.
  - destruct (notify_skips_channel_without_credentials Demo.half
                Demo.airdrop_item empty_world) as (H & _ & _).
    destruct (H eq_refl) as [_ Hposted]. rewrite Hposted.
    vm_compute. reflexivity.
Defined.

(** Score 12 is posted to both channels, score 1 to none. *)
Lemma notify_threshold_witness :
  posted (snd (process_entry Demo.quiet Demo.feed_a Demo.airdrop empty_world)) =
  [ PostForm "https://api.telegram.org/botT0K/sendMessage"
             [("chat_id", "42"); ("text", Demo.airdrop_message)];
    PostJson "https://d/hook" [("content", Demo.airdrop_message)] ]
  /\ posted (snd (process_entry Demo.quiet Demo.feed_a Demo.notes empty_world)) = [].
Proof.
  destruct (notify_threshold Demo.quiet Demo.feed_a Demo.airdrop empty_world)
    as (_ & Hhigh).
  destruct (notify_threshold Demo.quiet Demo.feed_a Demo.notes empty_world)
    as (Hlow & _).
  split.
  - rewrite Hhigh; [vm_compute; reflexivity | reflexivity | reflexivity
                    | intros; reflexivity | intros; reflexivity
                    | intros; reflexivity].
  - apply Hlow. vm_compute. reflexivity.
Defined.

(** Two appends to a file that did not exist: the header, then two records. *)
Lemma csv_header_written_once_witness :
  exists w',
    for_each [Demo.airdrop_item; Demo.notes_item] (save_to_csv Demo.quiet)
      empty_world = (Ret tt, w')
    /\ csv_file w' =
       Some [csv_header; csv_fields Demo.airdrop_item; csv_fields Demo.notes_item].
Proof.
  exact (proj1 (csv_header_written_once Demo.quiet)
           [Demo.airdrop_item; Demo.notes_item] empty_world
           (fun _ _ => eq_refl)).
Defined.

(** The entry is processed, then the whole feed that holds it, then the
    same link under another title. *)
Lemma dedup_one_row_one_record_witness :
  process_entry Demo.quiet Demo.feed_a Demo.airdrop_again Demo.after_feed =
  (Ret tt, tick Demo.after_feed)
  /\ count_id (entry_uid Demo.feed_a Demo.airdrop) (table Demo.after_feed) = 1%nat
  /\ csv_count (entry_uid Demo.feed_a Demo.airdrop) (csv_file Demo.after_feed) = 1%nat.
Proof.
  assert (Hfirst : process_entry Demo.quiet Demo.feed_a Demo.airdrop empty_world =
                   (Ret tt, Demo.after_airdrop)) by (vm_compute; reflexivity).
  assert (Hruns : runs Demo.quiet Demo.after_airdrop Demo.after_feed).
  { replace Demo.after_feed
      with (snd (fetch_feed Demo.quiet Demo.feed_a Demo.after_airdrop))
      by (vm_compute; reflexivity).
    apply runs_feed, runs_here. }
  destruct (dedup_one_row_one_record Demo.quiet Demo.feed_a Demo.airdrop
              Demo.airdrop_again empty_world Demo.after_airdrop Demo.after_feed
              consistent_empty eq_refl Hfirst Hruns eq_refl eq_refl)
    as (Hskip & Hrow & Hrecord & _).
  split; [exact Hskip | split; [exact Hrow | exact Hrecord]].
Defined.

(** Two entries without a link, with different titles. *)
Lemma linkless_entries_collapse_witness :
  entry_uid Demo.feed_a Demo.quest = entry_uid Demo.feed_a Demo.notes
  /\ process_entry Demo.quiet Demo.feed_a Demo.quest Demo.after_notes =
     (Ret tt, tick Demo.after_notes).
Proof.
  assert (Hw : snd (process_entry Demo.quiet Demo.feed_a Demo.notes empty_world)
               = Demo.after_notes) by (vm_compute; reflexivity).
  destruct (linkless_entries_collapse Demo.quiet Demo.feed_a Demo.notes
              Demo.quest empty_world Demo.after_notes eq_refl eq_refl)
    as (_ & Hsame & _ & Hskip).
  split; [exact Hsame|].
  apply Hskip.
  - vm_compute. reflexivity.
  - rewrite Hw. apply runs_here.
  - reflexivity.
Defined.

(** * Further properties *)

(** ** The scorer *)

Lemma score_item_hits (title summary : string) :
  score_item title summary =
  (total (map snd (hits keywords (lower (title ++ " " ++ summary)))),
   map fst (hits keywords (lower (title ++ " " ++ summary))),
   join ";" (map (fun kv => reason_of (fst kv) (snd kv))
                 (hits keywords (lower (title ++ " " ++ summary))))).
Proof. unfold score_item. now rewrite score_loop_hits. Qed.

Lemma total_filter_bounds (f : string * Z -> bool) (l : list (string * Z)) :
  Forall (fun kv => 0 < snd kv) l ->
  0 <= total (map snd (filter f l)) <= total (map snd l).
Proof.
  induction 1 as [|kv l Hkv _ IH]; simpl; [lia|].
  destruct (f kv); simpl; lia.
Qed.

Lemma total_filter_zero (f : string * Z -> bool) (l : list (string * Z)) :
  Forall (fun kv => 0 < snd kv) l ->
  total (map snd (filter f l)) = 0 -> filter f l = [].
Proof.
  induction 1 as [|kv l Hkv Hl IH]; simpl; [reflexivity|].
  destruct (f kv); simpl; [|exact IH].
  pose proof (total_filter_bounds f l Hl). lia.
Qed.

Lemma nodup_filter_names (f : string * Z -> bool) (l : list (string * Z)) :
  NoDup (map fst l) -> NoDup (map fst (filter f l)).
Proof.
  induction l as [|kv l IH]; simpl; intros H; [constructor|].
  inversion H as [|x xs Hnotin Hnd]; subst.
  destruct (f kv); simpl; [|now apply IH].
  constructor; [|now apply IH].
  intros Hin. apply Hnotin. apply in_map_iff in Hin.
  destruct Hin as (kv' & Heq & Hin). apply filter_In in Hin.
  apply in_map_iff. exists kv'. tauto.
Qed.

Lemma keywords_positive : Forall (fun kv : string * Z => 0 < snd kv) keywords.
Proof. repeat constructor. Qed.

Lemma keywords_distinct : NoDup (map fst keywords).
Proof.
  repeat (constructor; [simpl; intuition discriminate|]). constructor.
Qed.

Lemma reasons_empty (l : list (string * Z)) :
  join ";" (map (fun kv => reason_of (fst kv) (snd kv)) l) = "" -> l = [].
Proof.
  destruct l as [|[word val] l]; [reflexivity|]. simpl.
  unfold reason_of.
  destruct (map _ l); destruct word; discriminate.
Qed.

(** X1: whatever the title and the summary, the score lies between 0 and
    28, the tags are keywords of the table without repetition, and score 0,
    no tag and the empty reason go together. *)
Theorem score_item_range (title summary : string) :
  let score := fst (fst (score_item title summary)) in
  let tags := snd (fst (score_item title summary)) in
  let reason := snd (score_item title summary) in
  0 <= score <= 28
  /\ NoDup tags
  /\ (forall tag, In tag tags -> In tag (map fst keywords))
  /\ (score = 0 <-> tags = [])
  /\ (tags = [] <-> reason = "").
Proof.
  rewrite score_item_hits. cbn [fst snd]. unfold hits.
  set (f := fun kv : string * Z => str_contains (fst kv) _).
  split; [|split; [|split; [|split]]].
  - apply (total_filter_bounds f keywords keywords_positive).
  - apply nodup_filter_names, keywords_distinct.
  - intros tag Hin. apply in_map_iff in Hin. destruct Hin as (kv & Heq & Hin).
    apply filter_In in Hin. apply in_map_iff. exists kv. tauto.
  - split.
    + intros H. now rewrite (total_filter_zero f keywords keywords_positive H).
    + intros H. apply map_eq_nil in H. now rewrite H.
  - split.
    + intros H. apply map_eq_nil in H. now rewrite H.
    + intros H. apply reasons_empty in H. now rewrite H.
Qed.

Lemma lower_ascii_twice (c : ascii) : lower_ascii (lower_ascii c) = lower_ascii c.
Proof. destruct c as [[] [] [] [] [] [] [] []]; reflexivity. Qed.

Lemma lower_twice (s : string) : lower (lower s) = lower s.
Proof.
  induction s as [|c s IH]; simpl; [reflexivity|].
  now rewrite lower_ascii_twice, IH.
Qed.

Lemma lower_append (a b : string) : lower (a ++ b) = lower a ++ lower b.
Proof. induction a as [|c a IH]; simpl; [reflexivity | now rewrite IH]. Qed.

Lemma lower_text (title summary : string) :
  lower (title ++ " " ++ summary) = lower title ++ " " ++ lower summary.
Proof. now rewrite !lower_append. Qed.

(** X2: the scorer does not see the case of letters: two titles that
    lower-case to the same string, with two summaries that do, get the same
    score, tags and reason; so do a title and summary and their lower-cased
    forms. *)
Theorem score_item_ignores_case (title summary title' summary' : string) :
  lower title = lower title' ->
  lower summary = lower summary' ->
  score_item title summary = score_item title' summary'
  /\ score_item title summary = score_item (lower title) (lower summary).
Proof.
  intros Ht Hs. rewrite !score_item_hits, !lower_text, !lower_twice.
  now rewrite Ht, Hs.
Qed.

Lemma prefix_before_space (word a b : string) :
  spaceless word = true ->
  prefix word (a ++ " " ++ b) = prefix word a.
Proof.
  revert a. induction word as [|d word IH]; intros a Hw.
  - now destruct a.
  - unfold spaceless in Hw. simpl in Hw. apply andb_true_iff in Hw.
    destruct Hw as [Hd Hw]. destruct a as [|c a]; simpl.
    + destruct (ascii_dec d " ") as [->|Hne]; [discriminate | reflexivity].
    + destruct (ascii_dec d c); [now apply IH | reflexivity].
Qed.

Lemma str_contains_empty (word : string) :
  str_contains word "" = match word with EmptyString => true | _ => false end.
Proof. now destruct word. Qed.

Lemma str_contains_across_space (word a b : string) :
  spaceless word = true ->
  str_contains word (a ++ " " ++ b) = str_contains word a || str_contains word b.
Proof.
  intros Hw. induction a as [|c a IH].
  - change ("" ++ " " ++ b) with (String " " b). cbn [str_contains].
    change (String " " b) with ("" ++ " " ++ b).
    rewrite (prefix_before_space word "" b Hw). now rewrite orb_false_r.
  - change (String c a ++ " " ++ b) with (String c (a ++ " " ++ b)).
    cbn [str_contains]. rewrite IH.
    change (String c (a ++ " " ++ b)) with (String c a ++ " " ++ b).
    rewrite (prefix_before_space word (String c a) b Hw).
    now rewrite orb_assoc.
Qed.

Lemma keywords_spaceless :
  forall kv, In kv keywords -> spaceless (fst kv) = true.
Proof.
  intros kv Hin. simpl in Hin.
  repeat (destruct Hin as [<-|Hin]; [reflexivity|]). contradiction.
Qed.

(** X3: a keyword counts exactly when it occurs in the lower-cased title or
    in the lower-cased summary: the space put between the two keeps a keyword
    from matching across them. *)
Theorem score_item_title_or_summary (title summary : string) :
  let matched :=
    filter (fun kv => str_contains (fst kv) (lower title) ||
                      str_contains (fst kv) (lower summary)) keywords in
  score_item title summary =
  (total (map snd matched), map fst matched,
   join ";" (map (fun kv => reason_of (fst kv) (snd kv)) matched)).
Proof.
  intros matched. rewrite score_item_hits. unfold hits.
  assert (H : filter (fun kv => str_contains (fst kv) (lower (title ++ " " ++ summary)))
                     keywords = matched).
  { unfold matched. apply filter_ext_in. intros kv Hin.
    rewrite lower_text. apply str_contains_across_space.
    now apply keywords_spaceless. }
  now rewrite H.
Qed.

(** ** The fingerprint *)

Lemma round_length (s : list Z) (kw : Z * Z) :
  List.length s = 8%nat -> List.length (Sha256.round s kw) = 8%nat.
Proof.
  intros H.
  do 9 (destruct s as [|? s]; try discriminate H). reflexivity.
Qed.

Lemma rounds_length (kws : list (Z * Z)) (s : list Z) :
  List.length s = 8%nat -> List.length (fold_left Sha256.round kws s) = 8%nat.
Proof.
  revert s. induction kws as [|kw kws IH]; intros s H; simpl; [exact H|].
  apply IH. now apply round_length.
Qed.

Lemma compress_length (h block : list Z) :
  List.length h = 8%nat -> List.length (Sha256.compress h block) = 8%nat.
Proof.
  intros H. unfold Sha256.compress.
  rewrite length_map, length_combine, rounds_length by exact H.
  rewrite H. reflexivity.
Qed.

Lemma hash_blocks_length (n : nat) (ws h : list Z) :
  List.length h = 8%nat -> List.length (Sha256.hash_blocks n ws h) = 8%nat.
Proof.
  revert ws h. induction n as [|n IH]; intros ws h H; simpl; [exact H|].
  apply IH. now apply compress_length.
Qed.

Lemma be_bytes_length (k : nat) (v : Z) : List.length (Sha256.be_bytes k v) = k.
Proof. induction k as [|k IH]; simpl; [reflexivity | now rewrite IH]. Qed.

Lemma flat_map_words_length (h : list Z) :
  List.length (flat_map (Sha256.be_bytes 4) h) = (4 * List.length h)%nat.
Proof.
  induction h as [|x h IH]; [reflexivity|].
  cbn [flat_map]. rewrite length_app, be_bytes_length, IH. simpl. lia.
Qed.

Lemma digest_length (data : list byte) :
  List.length (Sha256.digest data) = 32%nat.
Proof.
  unfold Sha256.digest. rewrite length_map, flat_map_words_length.
  rewrite hash_blocks_length; reflexivity.
Qed.

Lemma hexlify_length (bs : list byte) :
  String.length (hexlify bs) = (2 * List.length bs)%nat.
Proof.
  induction bs as [|b bs IH]; [reflexivity|].
  cbn [hexlify hex_byte append String.length List.length]. rewrite IH. lia.
Qed.

Lemma hex_byte_digits (b : byte) (c : ascii) :
  In c (list_ascii_of_string (hex_byte b)) ->
  In c (list_ascii_of_string "0123456789abcdef").
Proof.
  destruct b; simpl; intros [<-|[<-|[]]]; simpl; tauto.
Qed.

Lemma hexlify_digits (bs : list byte) (c : ascii) :
  In c (list_ascii_of_string (hexlify bs)) ->
  In c (list_ascii_of_string "0123456789abcdef").
Proof.
  induction bs as [|b bs IH]; [intros []|].
  cbn [hexlify hex_byte append list_ascii_of_string].
  intros [H|[H|H]].
  - apply (hex_byte_digits b). left. exact H.
  - apply (hex_byte_digits b). right. left. exact H.
  - now apply IH.
Qed.

(** X4: a fingerprint is always 64 characters long, each a digit or a
    letter from a to f in lower case, and decoding it from hexadecimal gives
    back the 32 bytes of the digest. *)
Theorem hash_id_format (source url : string) :
  String.length (hash_id source url) = 64%nat
  /\ (forall c, In c (list_ascii_of_string (hash_id source url)) ->
                In c (list_ascii_of_string "0123456789abcdef"))
  /\ unhexlify (hash_id source url) = Some (Sha256.digest (encode (source ++ url)))
  /\ List.length (Sha256.digest (encode (source ++ url))) = 32%nat.
Proof.
  unfold hash_id, sha256_hexdigest. repeat split.
  - now rewrite hexlify_length, digest_length.
  - apply hexlify_digits.
  - apply unhexlify_hexlify.
  - apply digest_length.
Qed.

(** ** Composing computations *)

Lemma keeps_ret {A : Type} (R : World -> World -> Prop) (a : A) :
  (forall w, R w w) -> keeps R (ret a).
Proof. intros Hrefl w. apply Hrefl. Qed.

Lemma keeps_bind {A B : Type} (R : World -> World -> Prop)
  (m : M A) (k : A -> M B) :
  (forall w1 w2 w3, R w1 w2 -> R w2 w3 -> R w1 w3) ->
  keeps R m -> (forall a, keeps R (k a)) -> keeps R (bind m k).
Proof.
  intros Htrans Hm Hk w. unfold bind. specialize (Hm w).
  destruct (m w) as [[a|e] w1]; simpl in *; [|exact Hm].
  apply Htrans with w1; [exact Hm | apply Hk].
Qed.

Lemma keeps_try {A : Type} (R : World -> World -> Prop)
  (m : M A) (h : string -> M A) :
  (forall w1 w2 w3, R w1 w2 -> R w2 w3 -> R w1 w3) ->
  keeps R m -> (forall e, keeps R (h e)) -> keeps R (try_except m h).
Proof.
  intros Htrans Hm Hh w. unfold try_except. specialize (Hm w).
  destruct (m w) as [[a|e] w1]; simpl in *; [exact Hm|].
  apply Htrans with w1; [exact Hm | apply Hh].
Qed.

Lemma keeps_for_each {A : Type} (R : World -> World -> Prop)
  (xs : list A) (body : A -> M unit) :
  (forall w, R w w) ->
  (forall w1 w2 w3, R w1 w2 -> R w2 w3 -> R w1 w3) ->
  (forall x, keeps R (body x)) -> keeps R (for_each xs body).
Proof.
  intros Hrefl Htrans Hbody. induction xs as [|x xs IH]; simpl.
  - now apply keeps_ret.
  - apply keeps_bind; [exact Htrans | apply Hbody | intros _; exact IH].
Qed.

(** ** Worlds that only grow *)

Lemma extends_refl {A : Type} (l : list A) : extends l l.
Proof. exists []. now rewrite app_nil_r. Qed.

Lemma extends_trans {A : Type} (l1 l2 l3 : list A) :
  extends l1 l2 -> extends l2 l3 -> extends l1 l3.
Proof.
  intros [m1 ->] [m2 ->]. exists (m1 ++ m2)%list. now rewrite app_assoc.
Qed.

Lemma csv_extends_refl (f : option (list CsvRecord)) : csv_extends f f.
Proof. destruct f; simpl; [apply extends_refl | exact I]. Qed.

Lemma csv_extends_trans (f1 f2 f3 : option (list CsvRecord)) :
  csv_extends f1 f2 -> csv_extends f2 f3 -> csv_extends f1 f3.
Proof.
  destruct f1 as [r1|], f2 as [r2|], f3 as [r3|]; simpl; try tauto.
  - apply extends_trans.
  - intros [m1 ->] [m2 ->]. now exists (m1 ++ m2)%list.
Qed.

Lemma csv_extends_append (item : Item) (f : option (list CsvRecord)) :
  csv_extends f (Some (csv_append item f)).
Proof.
  destruct f as [records|]; simpl.
  - now exists [csv_fields item].
  - now exists [csv_fields item].
Qed.

Lemma grows_same (P : Row -> Prop) (w w' : World) :
  same_but_clock w w' -> grows P w w'.
Proof.
  intros (Ht & Hc & Hp & Ho). unfold grows. rewrite Ht, Hc, Hp, Ho.
  split; [exists []; split; [now rewrite app_nil_r | constructor]|].
  split; [apply csv_extends_refl|]. split; apply extends_refl.
Qed.

Lemma grows_refl (P : Row -> Prop) (w : World) : grows P w w.
Proof. apply grows_same. now repeat split. Qed.

Lemma grows_trans (P : Row -> Prop) (w1 w2 w3 : World) :
  grows P w1 w2 -> grows P w2 w3 -> grows P w1 w3.
Proof.
  intros ((r1 & Ht1 & Hp1) & Hc1 & Hq1 & Ho1) ((r2 & Ht2 & Hp2) & Hc2 & Hq2 & Ho2).
  split; [|split; [|split]].
  - exists (r1 ++ r2)%list. split.
    + now rewrite Ht2, Ht1, app_assoc.
    + apply Forall_app. now split.
  - now apply csv_extends_trans with (csv_file w2).
  - now apply extends_trans with (posted w2).
  - now apply extends_trans with (stdout w2).
Qed.

Lemma grows_tick (P : Row -> Prop) (w : World) : grows P w (tick w).
Proof. apply grows_same. now repeat split. Qed.

Section AgentGrowth.

Variable E : Env.
Variable P : Row -> Prop.

Lemma call_grows (op : Op) : keeps (grows P) (call E op).
Proof. intros w. unfold call. destruct (fault E w op); apply grows_tick. Qed.

Lemma print_grows (line : string) : keeps (grows P) (print line).
Proof.
  intros w. unfold print, modify. simpl. unfold grows. simpl.
  split; [exists []; split; [now rewrite app_nil_r | constructor]|].
  split; [apply csv_extends_refl|]. split; [apply extends_refl|].
  now exists [line].
Qed.

Lemma select_id_grows (uid : string) : keeps (grows P) (select_id E uid).
Proof.
  intros w. unfold select_id, bind, call, get_world, ret.
  destruct (fault E w (OpSelect uid)); apply grows_tick.
Qed.

Lemma utcnow_grows : keeps (grows P) (utcnow_isoformat E).
Proof. intros w. apply grows_tick. Qed.

Lemma feedparser_parse_grows (url : string) :
  keeps (grows P) (feedparser_parse E url).
Proof.
  intros w. unfold feedparser_parse.
  destruct (fault E w (OpParse url)); apply grows_tick.
Qed.

Lemma save_to_db_grows (item : Item) :
  P (db_values item) -> keeps (grows P) (save_to_db E item).
Proof.
  intros HP w. unfold save_to_db, bind, call, modify.
  destruct (fault E w (OpInsert (db_values item))); simpl; [apply grows_tick|].
  unfold grows. simpl.
  split; [|split; [apply csv_extends_refl | split; apply extends_refl]].
  unfold insert_or_ignore. destruct (has_id _ _).
  - exists []. split; [now rewrite app_nil_r | constructor].
  - exists [db_values item]. split; [reflexivity | now repeat constructor].
Qed.

Lemma save_to_csv_grows (item : Item) : keeps (grows P) (save_to_csv E item).
Proof.
  intros w. unfold save_to_csv, bind, call, modify, get_world.
  destruct (fault E w (OpAppend item)); simpl; [apply grows_tick|].
  unfold grows. simpl.
  split; [exists []; split; [now rewrite app_nil_r | constructor]|].
  split; [apply csv_extends_append | split; apply extends_refl].
Qed.

Lemma requests_post_grows (r : Request) : keeps (grows P) (requests_post E r).
Proof.
  intros w. rewrite requests_post_run. simpl. unfold grows. simpl.
  split; [exists []; split; [now rewrite app_nil_r | constructor]|].
  split; [apply csv_extends_refl|]. split; [now exists [r] | apply extends_refl].
Qed.

Lemma notify_grows (item : Item) : keeps (grows P) (notify E item).
Proof.
  unfold notify. apply keeps_bind; [apply grows_trans | |intros _].
  - intros w. rewrite notify_telegram_run.
    destruct (telegram_deliveries E _); [apply grows_refl | apply requests_post_grows].
  - intros w. rewrite notify_discord_run.
    destruct (discord_deliveries E _); [apply grows_refl | apply requests_post_grows].
Qed.

Hypothesis items_satisfy :
  forall url entry now, P (db_values (make_item url entry now)).

Lemma process_entry_grows (url : string) (entry : Entry) :
  keeps (grows P) (process_entry E url entry).
Proof.
  unfold process_entry.
  apply keeps_bind; [apply grows_trans | apply select_id_grows | intros seen].
  destruct seen; [apply keeps_ret, grows_refl|].
  apply keeps_bind; [apply grows_trans | apply utcnow_grows | intros now].
  apply keeps_bind;
    [apply grows_trans | apply save_to_db_grows, items_satisfy | intros _].
  apply keeps_bind; [apply grows_trans | apply save_to_csv_grows | intros _].
  apply keeps_bind; [apply grows_trans | | intros _; apply print_grows].
  destruct (3 <=? _); [apply notify_grows | apply keeps_ret, grows_refl].
Qed.

Lemma fetch_feed_grows (url : string) : keeps (grows P) (fetch_feed E url).
Proof.
  unfold fetch_feed. apply keeps_try; [apply grows_trans | | intros e; apply print_grows].
  apply keeps_bind; [apply grows_trans | apply feedparser_parse_grows | intros entries].
  apply keeps_for_each;
    [apply grows_refl | apply grows_trans | intros x; apply process_entry_grows].
Qed.

Lemma run_once_grows : keeps (grows P) (run_once E).
Proof.
  unfold run_once.
  apply keeps_bind; [apply grows_trans | apply utcnow_grows | intros now].
  apply keeps_bind; [apply grows_trans | apply print_grows | intros _].
  apply keeps_for_each;
    [apply grows_refl | apply grows_trans | intros x; apply fetch_feed_grows].
Qed.

Lemma runs_grow (w w' : World) : runs E w w' -> grows P w w'.
Proof.
  induction 1 as [w | w w' url entry _ IH | w w' url _ IH | w w' _ IH].
  - apply grows_refl.
  - apply grows_trans with w'; [exact IH | apply process_entry_grows].
  - apply grows_trans with w'; [exact IH | apply fetch_feed_grows].
  - apply grows_trans with w'; [exact IH | apply run_once_grows].
Qed.

End AgentGrowth.

(** ** Runs *)

Lemma score_bounds (title summary : string) :
  0 <= fst (fst (score_item title summary)) <= 28.
Proof.
  rewrite score_item_hits. cbn [fst snd]. unfold hits.
  apply (total_filter_bounds _ keywords keywords_positive).
Qed.

Lemma make_item_scored (url : string) (entry : Entry) (now : string) :
  scored_row (db_values (make_item url entry now)).
Proof.
  unfold scored_row, make_item.
  set (title := strip (get_or (entry_title entry) "")).
  set (summary := strip (get_or (entry_summary entry) "")).
  pose proof (score_bounds title summary) as Hb.
  destruct (score_item title summary) as [[score tags] reason] eqn:Hsc.
  cbn [db_values row_id row_source row_url row_title row_summary row_score
       row_tags row_reason item_id item_source item_url item_title
       item_summary item_score item_tags item_reason].
  rewrite Hsc. cbn [fst snd] in *.
  repeat split; try reflexivity; lia.
Qed.




Lemma same_sinks_refl (w : World) : same_sinks w w.
Proof. now repeat split. Qed.

Lemma same_sinks_trans (w1 w2 w3 : World) :
  same_sinks w1 w2 -> same_sinks w2 w3 -> same_sinks w1 w3.
Proof.
  intros (Ht & Hc & Hp) (Ht' & Hc' & Hp'). unfold same_sinks.
  now rewrite Ht', Hc', Hp', Ht, Hc, Hp.
Qed.

Section AgentRuns.

Variable E : Env.

(** X5: whatever the agent does and whatever fails, the table, the CSV
    file, the requests posted and the lines printed only get longer at the
    end: no row, record, request or line is removed or changed, and a file
    that is there stays there. *)
Theorem runs_only_append (w w' : World) :
  runs E w w' ->
  extends (table w) (table w')
  /\ csv_kept (csv_file w) (csv_file w')
  /\ extends (posted w) (posted w')
  /\ extends (stdout w) (stdout w').
Proof.
  intros H.
  destruct (runs_grow E (fun _ => True) (fun _ _ _ => I) w w' H)
    as ((rows & Ht & _) & Hc & Hp & Ho).
  split; [now exists rows|]. split; [|auto].
  unfold csv_kept. destruct (csv_file w) as [records|]; [|exact I].
  destruct (csv_file w') as [records'|]; [|contradiction].
  destruct Hc as [more ->]. now exists more.
Qed.

(** X6: every row the agent adds to the table is keyed by the fingerprint
    of its source and url and carries the score, the reason and the tags
    (joined with commas) that [score_item] gives for its title and summary,
    the score between 0 and 28. *)
Theorem stored_rows_are_scored (w w' : World) :
  runs E w w' ->
  exists rows,
    table w' = (table w ++ rows)%list /\ Forall scored_row rows.
Proof.
  intros H.
  destruct (runs_grow E scored_row make_item_scored w w' H) as (Hrows & _).
  exact Hrows.
Qed.


Lemma for_each_seen (url : string) (entries : list Entry) :
  (forall w' uid, fault E w' (OpSelect uid) = None) ->
  forall w,
    (forall e, In e entries -> has_id (entry_uid url e) (table w) = true) ->
    fst (for_each entries (process_entry E url) w) = Ret tt
    /\ same_but_clock w (snd (for_each entries (process_entry E url) w)).
Proof.
  intros Hsel. induction entries as [|e entries IH]; intros w Hall; simpl.
  - now repeat split.
  - unfold bind.
    rewrite (process_entry_seen E url e w (Hsel w _) (Hall e (or_introl eq_refl))).
    destruct (IH (tick w)) as (Hr & Ht & Hc & Hp & Ho).
    { intros e' Hin. simpl. apply Hall. now right. }
    split; [exact Hr|]. unfold same_but_clock. now rewrite Ht, Hc, Hp, Ho.
Qed.

(** X9: fetching a feed whose entries are all stored already changes
    nothing but the clock (no row, no record, no request, no printed line),
    provided the feed parses and the SELECTs go through. *)
Theorem refetch_changes_nothing (url : string) (w : World) :
  fault E w (OpParse url) = None ->
  (forall w' uid, fault E w' (OpSelect uid) = None) ->
  (forall e, In e (feed_entries E w url) ->
             has_id (entry_uid url e) (table w) = true) ->
  fst (fetch_feed E url w) = Ret tt
  /\ same_but_clock w (snd (fetch_feed E url w)).
Proof.
  intros Hparse Hsel Hall.
  destruct (for_each_seen url (feed_entries E w url) Hsel (tick w) Hall)
    as (Hr & Hsame).
  unfold fetch_feed, try_except, bind, feedparser_parse. rewrite Hparse.
  destruct (for_each _ _ _) as [[[]|e] w1]; simpl in *; [|discriminate].
  split; [reflexivity | exact Hsame].
Qed.

Lemma for_each_returned_stored (url : string) (entries : list Entry) :
  forall w,
    fst (for_each entries (process_entry E url) w) = Ret tt ->
    forall e, In e entries ->
      has_id (entry_uid url e)
             (table (snd (for_each entries (process_entry E url) w))) = true.
Proof.
  induction entries as [|e entries IH]; intros w Hret e' Hin; [contradiction|].
  simpl for_each in *. unfold bind in *.
  pose proof (process_entry_returned_stored E url e w) as Hstored.
  destruct (process_entry E url e w) as [[[]|err] w1]; cbn [fst snd] in *;
    [|discriminate].
  destruct Hin as [<-|Hin]; [|now apply IH].
  apply has_id_kept with w1; [now apply Hstored|].
  apply for_each_store. intros x w0.
  apply store_step_steps, (process_entry_store E).
Qed.

(** X10: when the feed parses and the loop over its entries runs to its end
    without an exception, every entry of the feed is in the table when
    [fetch_feed] returns. *)
Theorem fetched_entries_all_stored (url : string) (w : World) :
  fault E w (OpParse url) = None ->
  fst (for_each (feed_entries E w url) (process_entry E url) (tick w)) = Ret tt ->
  forall e, In e (feed_entries E w url) ->
    has_id (entry_uid url e) (table (snd (fetch_feed E url w))) = true.
Proof.
  intros Hparse Hret e Hin.
  pose proof (for_each_returned_stored url (feed_entries E w url) (tick w)
                Hret e Hin) as Hstored.
  unfold fetch_feed, try_except, bind, feedparser_parse. rewrite Hparse.
  destruct (for_each _ _ _) as [[[]|err] w1]; cbn [fst snd] in *;
    [exact Hstored | discriminate].
Qed.

Lemma process_entry_stored_world (url : string) (entry : Entry) (w : World) :
  has_id (entry_uid url entry) (table w) = true ->
  snd (process_entry E url entry w) = tick w.
Proof.
  intros Hi.
  destruct (fault E w (OpSelect (entry_uid url entry))) as [e|] eqn:Hs.
  - now rewrite (process_entry_select_fault E url entry e w Hs).
  - now rewrite (process_entry_seen E url entry w Hs Hi).
Qed.

(** X11: nothing is retried.  Once a fingerprint is in the table (even when
    the CSV write or the notification failed right after the insert), the
    agent never again writes a row or a record for it, and processing an
    entry with that fingerprint posts, writes and prints nothing. *)
Theorem stored_entry_never_retried
  (url : string) (entry : Entry) (w1 w2 : World) :
  has_id (entry_uid url entry) (table w1) = true ->
  runs E w1 w2 ->
  count_id (entry_uid url entry) (table w2) =
  count_id (entry_uid url entry) (table w1)
  /\ csv_count (entry_uid url entry) (csv_file w2) =
     csv_count (entry_uid url entry) (csv_file w1)
  /\ snd (process_entry E url entry w2) = tick w2.
Proof.
  intros Hi Hruns.
  destruct (settled_steps (entry_uid url entry) _ _ w1 w2
              (entry_uid_not_header url entry)
              (conj Hi (conj eq_refl eq_refl)) (runs_store E _ _ Hruns))
    as (Hh & Hr & Hc).
  split; [exact Hr | split; [exact Hc|]].
  now apply process_entry_stored_world.
Qed.

(** X12: the channels are not independent when a call fails: when the
    Telegram request raises, [notify] raises with it and the Discord request
    is not made, whether Discord is configured or not. *)
Theorem telegram_failure_skips_discord
  (item : Item) (w : World) (r : Request) (e : string) :
  telegram_deliveries E (message_text item) = [r] ->
  fault E (with_posted (posted w ++ [r]) w) (OpPost r) = Some e ->
  notify E item w = (Raise e, tick (with_posted (posted w ++ [r]) w)).
Proof.
  intros Hr Hf. unfold notify, bind.
  now rewrite notify_telegram_run, Hr, requests_post_run, Hf.
Qed.

(** X13: an environment variable wins over the configuration, also when it
    is set to the empty string: an empty TG_BOT_TOKEN, TG_CHAT_ID or
    DISCORD_WEBHOOK_URL switches its channel off whatever the configuration
    holds, and non-empty variables are the credentials used. *)
Theorem environment_overrides_configuration (text : string) (w : World) :
  (getenv E "TG_BOT_TOKEN" = Some "" \/ getenv E "TG_CHAT_ID" = Some "" ->
   notify_telegram E text w = (Ret tt, w))
  /\ (getenv E "DISCORD_WEBHOOK_URL" = Some "" ->
      notify_discord E text w = (Ret tt, w))
  /\ (forall tg token chat,
        telegram (NOTIFY E) = Some tg -> tg_enabled tg = true ->
        getenv E "TG_BOT_TOKEN" = Some token -> token <> "" ->
        getenv E "TG_CHAT_ID" = Some chat -> chat <> "" ->
        notify_telegram E text w =
        requests_post E (telegram_request token chat text) w)
  /\ (forall dc hook,
        discord (NOTIFY E) = Some dc -> dc_enabled dc = true ->
        getenv E "DISCORD_WEBHOOK_URL" = Some hook -> hook <> "" ->
        notify_discord E text w =
        requests_post E (discord_request hook text) w).
Proof.
  split; [|split; [|split]].
  - intros H. unfold notify_telegram, os_getenv.
    destruct (telegram (NOTIFY E)) as [tg|]; [|reflexivity].
    destruct (tg_enabled tg); [|reflexivity].
    destruct H as [H|H]; rewrite H; simpl; [reflexivity|].
    now rewrite andb_false_r.
  - intros H. unfold notify_discord, os_getenv.
    destruct (discord (NOTIFY E)) as [dc|]; [|reflexivity].
    destruct (dc_enabled dc); [|reflexivity].
    now rewrite H.
  - intros tg token chat Htg Hen Ht Hne Hc Hnc.
    unfold notify_telegram, os_getenv. rewrite Htg, Hen, Ht, Hc.
    destruct token; [contradiction|]. destruct chat; [contradiction|].
    reflexivity.
  - intros dc hook Hdc Hen Hh Hne.
    unfold notify_discord, os_getenv. rewrite Hdc, Hen, Hh.
    destruct hook; [contradiction|]. reflexivity.
Qed.

(** X14: an entry is notified only after it has been persisted: when
    processing an entry posts a request, the entry scores at least 3 and at
    that point its row is in the table and its record in the file. *)
Theorem posts_only_after_persisting (url : string) (entry : Entry) (w : World) :
  posted (snd (process_entry E url entry w)) <> posted w ->
  has_id (entry_uid url entry) (table (snd (process_entry E url entry w))) = true
  /\ (1 <= csv_count (entry_uid url entry)
                     (csv_file (snd (process_entry E url entry w))))%nat
  /\ 3 <= item_score (make_item url entry (utcnow E (tick w))).
Proof.
  destruct (has_id (entry_uid url entry) (table w)) eqn:Hi.
  { rewrite (process_entry_stored_world url entry w Hi). intros H. now elim H. }
  destruct (fault E w (OpSelect (entry_uid url entry))) as [e|] eqn:Hs.
  { rewrite (process_entry_select_fault E url entry e w Hs). intros H. now elim H. }
  rewrite (process_entry_new E url entry w Hs Hi).
  set (item := make_item url entry (utcnow E (tick w))).
  assert (Hid : item_id item = entry_uid url entry) by apply make_item_id.
  destruct (3 <=? item_score item) eqn:Hscore.
  2:{ rewrite (persist_and_notify_quiet E item _ Hscore). intros H. now elim H. }
  destruct (fault E (tick (tick w)) (OpInsert (db_values item))) as [e|] eqn:Hins.
  { rewrite (insert_fault_raises E item e _ Hins). intros H. now elim H. }
  intros Hposted.
  assert (Hstore :
    table (snd (persist_and_notify E item (tick (tick w)))) =
      (table w ++ [db_values item])%list
    /\ csv_file (snd (persist_and_notify E item (tick (tick w)))) =
       Some (csv_append item (csv_file w))).
  { revert Hposted.
    unfold persist_and_notify, save_to_db, save_to_csv, bind, call, modify,
      get_world, print, ret.
    rewrite Hins. cbn [fst snd].
    destruct (fault E _ (OpAppend item)) as [e|]; cbn [fst snd].
    { intros H. now elim H. }
    rewrite Hscore. intros _.
    cbn [table tick].
    rewrite (insert_new (db_values item) (table w))
      by (simpl; rewrite Hid; exact Hi).
    match goal with
    | |- context [notify E item ?w0] =>
        destruct (notify_store E item w0) as (Ht & Hc & _);
        destruct (notify E item w0) as [[[]|e] wn]
    end; cbn [fst snd] in *; split; assumption. }
  destruct Hstore as [Ht Hc]. rewrite Ht, Hc.
  rewrite has_id_app, (csv_count_append _ _ _ (entry_uid_not_header url entry)).
  simpl row_id. rewrite Hid, String.eqb_refl, orb_true_r.
  split; [reflexivity | split; [lia | now apply Z.leb_le]].
Qed.

(** X15: [save_to_db] keeps the first row of a key: after it returns the
    key is found; a row already there is neither removed nor replaced, also
    when the new item has other fields under the same key; and distinct keys
    stay distinct. *)
Theorem save_to_db_first_wins (item : Item) (w : World) :
  let w' := snd (save_to_db E item w) in
  (fst (save_to_db E item w) = Ret tt ->
   has_id (item_id item) (table w') = true)
  /\ (forall r, In r (table w) -> In r (table w'))
  /\ (has_id (item_id item) (table w) = true -> table w' = table w)
  /\ (NoDup (map row_id (table w)) -> NoDup (map row_id (table w')))
  /\ (List.length (table w') <= S (List.length (table w)))%nat.
Proof.
  unfold save_to_db, bind, call, modify.
  destruct (fault E w (OpInsert (db_values item))) as [e|]; cbn [fst snd table tick with_table].
  { repeat split; auto; discriminate. }
  unfold insert_or_ignore. change (row_id (db_values item)) with (item_id item).
  destruct (has_id (item_id item) (table w)) eqn:Hi.
  - repeat split; auto.
  - repeat split.
    + intros _. rewrite has_id_app.
      change (row_id (db_values item)) with (item_id item).
      now rewrite String.eqb_refl, orb_true_r.
    + intros r Hr. apply in_or_app. now left.
    + discriminate.
    + intros Hnd. now apply nodup_snoc.
    + rewrite length_app. simpl. lia.
Qed.

(** X16: [save_to_csv] does not look for duplicates: every call that
    returns adds one record for the item, so the only guard against a second
    record is the SELECT of [fetch_feed]. *)
Theorem save_to_csv_never_dedups (item : Item) (w : World) :
  item_id item <> "id" ->
  fault E w (OpAppend item) = None ->
  save_to_csv E item w =
  (Ret tt, with_csv (Some (csv_append item (csv_file w))) (tick w))
  /\ csv_count (item_id item) (csv_file (snd (save_to_csv E item w))) =
     S (csv_count (item_id item) (csv_file w)).
Proof.
  intros Hid Hf. rewrite (save_to_csv_run E item w Hf). split; [reflexivity|].
  cbn [snd csv_file with_csv].
  rewrite (csv_count_append _ _ _ Hid), String.eqb_refl. lia.
Qed.

End AgentRuns.

Section AgentIdle.

Variable E : Env.

Lemma for_each_stored_idle (url : string) (entries : list Entry) :
  forall w,
    (forall e, In e entries -> has_id (entry_uid url e) (table w) = true) ->
    same_sinks w (snd (for_each entries (process_entry E url) w)).
Proof.
  induction entries as [|e entries IH]; intros w Hall; [apply same_sinks_refl|].
  simpl for_each. unfold bind.
  pose proof (process_entry_stored_world E url e w (Hall e (or_introl eq_refl)))
    as Hworld.
  destruct (process_entry E url e w) as [[[]|err] w1]; cbn [fst snd] in *;
    subst w1.
  - apply same_sinks_trans with (tick w); [now repeat split|].
    apply IH. intros e' Hin. apply Hall. now right.
  - now repeat split.
Qed.

Lemma fetch_feed_stored_idle (url : string) (w : World) :
  (forall e, In e (feed_entries E w url) ->
             has_id (entry_uid url e) (table w) = true) ->
  same_sinks w (snd (fetch_feed E url w)).
Proof.
  intros Hall.
  pose proof (for_each_stored_idle url (feed_entries E w url) (tick w) Hall)
    as (Ht & Hc & Hp).
  unfold fetch_feed, try_except, bind, feedparser_parse, print, modify.
  destruct (fault E w (OpParse url)) as [e|]; [now repeat split|].
  destruct (for_each _ _ _) as [[[]|err] w1]; cbn [fst snd] in *;
    unfold same_sinks; cbn [table csv_file posted with_stdout]; auto.
Qed.

Lemma run_feeds_stored_idle (feeds : list string) (w0 : World) :
  (forall w' url e, In url feeds -> In e (feed_entries E w' url) ->
                    has_id (entry_uid url e) (table w0) = true) ->
  forall w, table w = table w0 ->
    same_sinks w (snd (for_each feeds (fetch_feed E) w)).
Proof.
  induction feeds as [|u feeds IH]; intros Hall w Htable;
    [apply same_sinks_refl|].
  simpl for_each. unfold bind.
  assert (Hfetch : same_sinks w (snd (fetch_feed E u w))).
  { apply fetch_feed_stored_idle. intros e He. rewrite Htable.
    apply (Hall w u e); [now left | exact He]. }
  destruct (fetch_feed E u w) as [[[]|err] w1]; cbn [fst snd] in *;
    [|exact Hfetch].
  apply same_sinks_trans with w1; [exact Hfetch|].
  apply IH.
  - intros w' url e Hurl He. apply (Hall w' url e); [now right | exact He].
  - destruct Hfetch as (Ht & _). now rewrite Ht.
Qed.

(** X17: a run over feeds whose entries are all stored already neither
    writes nor posts, whatever fails on the way: the table, the file and the
    requests posted are after [run_once] what they were before. *)
Theorem run_over_stored_feeds_is_idle (w : World) :
  (forall w' url e, In url (FEEDS E) -> In e (feed_entries E w' url) ->
                    has_id (entry_uid url e) (table w) = true) ->
  table (snd (run_once E w)) = table w
  /\ csv_file (snd (run_once E w)) = csv_file w
  /\ posted (snd (run_once E w)) = posted w.
Proof.
  intros Hall. rewrite run_once_feeds.
  destruct (run_feeds_stored_idle (FEEDS E) w Hall (header_world E w) eq_refl)
    as (Ht & Hc & Hp).
  rewrite Ht, Hc, Hp. now repeat split.
Qed.

End AgentIdle.

(** ** The further properties on concrete runs *)

(** Upper case, mixed case and lower case score alike. *)
Lemma score_item_ignores_case_witness :
  score_item "AIRDROP Quest" "Earn REWARDS" = score_item "airdrop quest" "earn rewards".
Proof.
  apply (score_item_ignores_case "AIRDROP Quest" "Earn REWARDS"
                                 "airdrop quest" "earn rewards");
    reflexivity.
Defined.

Lemma demo_runs : runs Demo.quiet empty_world Demo.after_feed.
Proof.
  replace Demo.after_feed
    with (snd (fetch_feed Demo.quiet Demo.feed_a
                 (snd (process_entry Demo.quiet Demo.feed_a Demo.airdrop empty_world))))
    by (vm_compute; reflexivity).
  apply runs_feed, runs_entry, runs_here.
Qed.

(** One entry, then its whole feed, from the empty world. *)
Lemma runs_only_append_witness :
  extends (table empty_world) (table Demo.after_feed)
  /\ csv_kept (csv_file empty_world) (csv_file Demo.after_feed)
  /\ extends (posted empty_world) (posted Demo.after_feed)
  /\ extends (stdout empty_world) (stdout Demo.after_feed).
Proof.
  exact (runs_only_append Demo.quiet empty_world Demo.after_feed demo_runs).
Defined.

Lemma stored_rows_are_scored_witness :
  exists rows,
    table Demo.after_feed = (table empty_world ++ rows)%list
    /\ Forall scored_row rows.
Proof.
  exact (stored_rows_are_scored Demo.quiet empty_world Demo.after_feed demo_runs).
Defined.


(** The feed is fetched a second time and nothing changes. *)
Lemma refetch_changes_nothing_witness :
  fst (fetch_feed Demo.quiet Demo.feed_a Demo.after_feed) = Ret tt
  /\ same_but_clock Demo.after_feed
       (snd (fetch_feed Demo.quiet Demo.feed_a Demo.after_feed)).
Proof.
  apply (refetch_changes_nothing Demo.quiet Demo.feed_a Demo.after_feed).
  - reflexivity.
  - intros w' uid. reflexivity.
  - intros e [<-|[<-|[<-|[]]]]; vm_compute; reflexivity.
Defined.

Lemma fetched_entries_all_stored_witness :
  has_id (entry_uid Demo.feed_a Demo.quest)
         (table (snd (fetch_feed Demo.quiet Demo.feed_a empty_world))) = true.
Proof.
  apply (fetched_entries_all_stored Demo.quiet Demo.feed_a empty_world).
  - reflexivity.
  - vm_compute. reflexivity.
  - right. right. left. reflexivity.
Defined.

(** The CSV write of the first entry fails; the feed is fetched again when
    writes go through, and the entry still has a row and no record. *)
Lemma stored_entry_never_retried_witness :
  fst (process_entry Demo.stuck Demo.feed_a Demo.airdrop empty_world)
  = Raise "disk full"
  /\ count_id (entry_uid Demo.feed_a Demo.airdrop) (table Demo.after_retry) = 1%nat
  /\ csv_count (entry_uid Demo.feed_a Demo.airdrop) (csv_file Demo.after_retry) = O
  /\ List.length (table Demo.after_retry) = 2%nat.
Proof.
  assert (Hruns : runs Demo.stuck Demo.after_disk_full Demo.after_retry).
  { replace Demo.after_retry
      with (snd (fetch_feed Demo.stuck Demo.feed_a Demo.after_disk_full))
      by (vm_compute; reflexivity).
    apply runs_feed, runs_here. }
  assert (Hstored : has_id (entry_uid Demo.feed_a Demo.airdrop)
                      (table Demo.after_disk_full) = true)
    by (vm_compute; reflexivity).
  destruct (stored_entry_never_retried Demo.stuck Demo.feed_a Demo.airdrop
              Demo.after_disk_full Demo.after_retry Hstored Hruns)
    as (Hrows & Hrecords & _).
  split; [vm_compute; reflexivity|].
  split; [rewrite Hrows; vm_compute; reflexivity|].
  split; [rewrite Hrecords; vm_compute; reflexivity | reflexivity].
Defined.

(** Telegram refuses the request: Discord, though configured, gets none. *)
Lemma telegram_failure_skips_discord_witness :
  posted (snd (notify Demo.refused Demo.airdrop_item empty_world)) =
  [telegram_request "T0K" "42" (message_text Demo.airdrop_item)]
  /\ discord_deliveries Demo.refused (message_text Demo.airdrop_item) <> [].
Proof.
  split; [|discriminate].
  rewrite (telegram_failure_skips_discord Demo.refused Demo.airdrop_item
             empty_world
             (telegram_request "T0K" "42" (message_text Demo.airdrop_item))
             "ConnectionError" eq_refl eq_refl).
  reflexivity.
Defined.

(** The configuration has a bot token; the empty variable hides it. *)
Lemma environment_overrides_configuration_witness :
  tg_bot_token
    (match telegram (NOTIFY Demo.overridden) with
     | Some tg => tg
     | None => {| tg_enabled := false; tg_bot_token := None; tg_chat_id := None |}
     end) = Some "T0K"
  /\ notify_telegram Demo.overridden "text" empty_world = (Ret tt, empty_world).
Proof.
  split; [reflexivity|].
  apply (environment_overrides_configuration Demo.overridden "text" empty_world).
  left. reflexivity.
Defined.

Lemma posts_only_after_persisting_witness :
  has_id (entry_uid Demo.feed_a Demo.airdrop)
         (table (snd (process_entry Demo.quiet Demo.feed_a Demo.airdrop empty_world)))
  = true
  /\ (1 <= csv_count (entry_uid Demo.feed_a Demo.airdrop)
            (csv_file (snd (process_entry Demo.quiet Demo.feed_a Demo.airdrop
                              empty_world))))%nat
  /\ 3 <= item_score (make_item Demo.feed_a Demo.airdrop
                         (utcnow Demo.quiet (tick empty_world))).
Proof.
  apply (posts_only_after_persisting Demo.quiet Demo.feed_a Demo.airdrop empty_world).
  vm_compute. discriminate.
Defined.

(** The same item appended twice: two records. *)
Lemma save_to_csv_never_dedups_witness :
  csv_count (item_id Demo.airdrop_item)
    (csv_file (snd (save_to_csv Demo.quiet Demo.airdrop_item
                      (snd (save_to_csv Demo.quiet Demo.airdrop_item empty_world)))))
  = 2%nat.
Proof.
  assert (Hid : item_id Demo.airdrop_item <> "id") by (vm_compute; discriminate).
  destruct (save_to_csv_never_dedups Demo.quiet Demo.airdrop_item
              (snd (save_to_csv Demo.quiet Demo.airdrop_item empty_world))
              Hid eq_refl) as [_ Hsecond].
  destruct (save_to_csv_never_dedups Demo.quiet Demo.airdrop_item empty_world
              Hid eq_refl) as [_ Hfirst].
  rewrite Hsecond, Hfirst. reflexivity.
Defined.

(** A second run over the same feeds. *)
Lemma run_over_stored_feeds_is_idle_witness :
  table (snd (run_once Demo.quiet Demo.after_run)) = table Demo.after_run
  /\ csv_file (snd (run_once Demo.quiet Demo.after_run)) = csv_file Demo.after_run
  /\ posted (snd (run_once Demo.quiet Demo.after_run)) = posted Demo.after_run.
Proof.
  apply (run_over_stored_feeds_is_idle Demo.quiet Demo.after_run).
  intros w' url e Hurl He.
  destruct Hurl as [<-|[<-|[<-|[]]]]; vm_compute in He;
    repeat (destruct He as [<-|He]; [vm_compute; reflexivity|]);
    contradiction.
Defined.
